(** * Realtime Whisper transcription: chunking and transcript stitching

    A shallow embedding of [realtime.py]: the recorder's chunk accumulator
    ([AudioRecorder._record_loop]), the processing loop
    ([TranscriptionManager._process_loop]) and the overlap-trimming merge
    ([TranscriptionManager._update_transcript]) together with the part of
    Python's [difflib.SequenceMatcher] the merge calls.

    Modelling conventions.
    - Python [str] values are [string]s of ASCII text.  [str.strip] removes the
      characters for which [str.isspace] holds (in the ASCII range: codes
      9-13, 28-31 and 32) and [str.lower] maps [A-Z] to [a-z].
    - Word timestamps (Python floats) are rationals [Q]; the program only
      subtracts and compares them.
    - A raised exception is a value of [result]; [try]/[except] is a match on it.
    - [print] appends its text to the text written so far. *)

From Stdlib Require Import Ascii QArith Lqa.
From stdpp Require Import gmap strings list fin_maps.

Local Open Scope string_scope.
Local Open Scope list_scope.
Local Open Scope nat_scope.

(** ** Configuration constants *)

Definition CHUNK_LEN_SEC : Z := 4.
Definition CHUNK_SIZE : Z := 1024.
Definition CHANNELS : Z := 1.
Definition RATE : Z := 16000.
Definition OVERLAP_SEC : Q := 1%Q.
(** Bytes per sample of [pyaudio.paInt16]. *)
Definition SAMPLE_WIDTH : Z := 2.

(** ** Exceptions *)

Inductive exn : Type :=
  | IndexError
  | OtherError (msg : string).

Inductive result (A : Type) : Type :=
  | Ok (a : A)
  | Raise (e : exn).
Arguments Ok {A} a.
Arguments Raise {A} e.

#[global] Instance result_ret : MRet result := λ A a, Ok a.
#[global] Instance result_bind : MBind result := λ A B k r,
  match r with
  | Ok a => k a
  | Raise e => Raise e
  end.

(** A list comprehension [[f w for w in l if c w]] whose condition may raise:
    the condition is evaluated once per element, in order. *)
Fixpoint comprehension {A B : Type} (f : A → B) (c : A → result bool)
    (l : list A) : result (list B) :=
  match l with
  | [] => Ok []
  | w :: l' =>
      keep ← c w ;
      rest ← comprehension f c l' ;
      Ok (if keep : bool then f w :: rest else rest)
  end.

(** [l[-1]] *)
Definition getitem_last {A : Type} (l : list A) : result A :=
  match last l with
  | Some x => Ok x
  | None => Raise IndexError
  end.

(** ** Text *)

Module Text.

(** [str.isspace] on the ASCII range.  Python also counts the Unicode
    whitespace beyond it (U+0085, U+00A0, U+2003, ...), which this model of
    ASCII text does not represent. *)
Definition isspace (c : ascii) : bool :=
  let n := nat_of_ascii c in
  ((9 <=? n)%nat && (n <=? 13)%nat) || ((28 <=? n)%nat && (n <=? 32)%nat).

Fixpoint lstrip (s : string) : string :=
  match s with
  | EmptyString => EmptyString
  | String c s' => if isspace c then lstrip s' else s
  end.

Fixpoint rstrip (s : string) : string :=
  match s with
  | EmptyString => EmptyString
  | String c s' =>
      match rstrip s' with
      | EmptyString => if isspace c then EmptyString else String c EmptyString
      | r => String c r
      end
  end.

Definition strip (s : string) : string := rstrip (lstrip s).

(** [str.lower] on the ASCII range: [A-Z] to [a-z].  Python also lowercases
    the cased letters beyond it, which this model leaves as they are. *)
Definition lower_char (c : ascii) : ascii :=
  let n := nat_of_ascii c in
  if (65 <=? n)%nat && (n <=? 90)%nat then ascii_of_nat (n + 32) else c.

Fixpoint lower (s : string) : string :=
  match s with
  | EmptyString => EmptyString
  | String c s' => String (lower_char c) (lower s')
  end.

Fixpoint all_space (s : string) : bool :=
  match s with
  | EmptyString => true
  | String c s' => isspace c && all_space s'
  end.

(** [sep.join(l)] *)
Fixpoint join (sep : string) (l : list string) : string :=
  match l with
  | [] => EmptyString
  | [s] => s
  | s :: l' => s +:+ sep +:+ join sep l'
  end.

End Text.

(** ** Words *)

Record Word : Type := mkWord {
  word : string;
  start : Q;
  end_ : Q;
}.

(** [a < b] and [a > b] on timestamps. *)
Definition Qltb (a b : Q) : bool := negb (Qle_bool b a).
Definition Qgtb (a b : Q) : bool := Qltb b a.

(** The token compared by the matcher: [w.word.strip().lower()]. *)
Definition normalize (w : Word) : string := Text.lower (Text.strip (word w)).

(** ** Overlap regions (lines 164-167) *)

Definition prev_overlap (prev_words : list Word) : result (list (string * Q)) :=
  comprehension (λ w, (normalize w, end_ w))
    (λ w, l ← getitem_last prev_words ; Ok (Qgtb (end_ w) (end_ l - OVERLAP_SEC)))
    prev_words.

Definition curr_overlap (words : list Word) : result (list (string * Q)) :=
  comprehension (λ w, (normalize w, start w))
    (λ w, Ok (Qltb (start w) OVERLAP_SEC))
    words.

(** ** [difflib.SequenceMatcher]

    The merge builds [SequenceMatcher(None, a, b)] (no junk predicate,
    [autojunk] left at its default [True]) and calls [find_longest_match]. *)

Module difflib.

Record Match : Type := mkMatch { a : nat; b : nat; size : nat }.

Record SequenceMatcher : Type := mkSequenceMatcher {
  seq_a : list string;
  seq_b : list string;
  b2j : gmap string (list nat);
  bjunk : gset string;
  bpopular : gset string;
}.

(** [for i, elt in enumerate(b): b2j.setdefault(elt, []).append(i)] *)
Definition index_elements (b : list string) : gmap string (list nat) :=
  foldl (λ m ie, <[ie.2 := default [] (m !! ie.2) ++ [ie.1]]> m) ∅
    (zip (seq 0 (length b)) b).

(** The elements purged as popular: with [autojunk] and [len(b) >= 200],
    those occurring more than [len(b) // 100 + 1] times. *)
Definition popular_elements (autojunk : bool) (n : nat)
    (b2j : gmap string (list nat)) : gset string :=
  if autojunk && (200 <=? n)%nat then
    let ntest := (n / 100 + 1)%nat in
    dom (filter (λ kv, (ntest < length kv.2)%nat) b2j)
  else ∅.

(** [__chain_b] with [isjunk = None]: no element is junk. *)
Definition chain_b (autojunk : bool) (b : list string)
    : gmap string (list nat) * gset string * gset string :=
  let b2j := index_elements b in
  let junk : gset string := ∅ in
  let popular := popular_elements autojunk (length b) b2j in
  (filter (λ kv, kv.1 ∉ popular) b2j, junk, popular).

Definition new (a b : list string) (autojunk : bool) : SequenceMatcher :=
  let '(b2j, junk, popular) := chain_b autojunk b in
  mkSequenceMatcher a b b2j junk popular.

Definition isbjunk (sm : SequenceMatcher) (x : string) : bool :=
  bool_decide (x ∈ bjunk sm).

(** [j2len.get(j-1, 0)]; the keys of [j2len] are indices of [b], so [-1]
    is never a key. *)
Definition j2lenget (j2len : gmap nat nat) (j : nat) : nat :=
  match j with
  | O => 0
  | S j' => default 0 (j2len !! j')
  end.

(** The inner [for j in b2j.get(a[i], nothing)] loop; it threads
    [newj2len] and the best match so far.  [k] never exceeds [i + 1] and
    [j + 1], so [i-k+1] and [j-k+1] are the natural numbers below. *)
Fixpoint scan_row (blo bhi i : nat) (j2len : gmap nat nat) (idxs : list nat)
    (newj2len : gmap nat nat) (best : Match) : gmap nat nat * Match :=
  match idxs with
  | [] => (newj2len, best)
  | j :: idxs' =>
      if (j <? blo)%nat then scan_row blo bhi i j2len idxs' newj2len best
      else if (bhi <=? j)%nat then (newj2len, best)
      else
        let k := (j2lenget j2len j + 1)%nat in
        let newj2len := <[j := k]> newj2len in
        let best :=
          if (size best <? k)%nat then mkMatch (i + 1 - k) (j + 1 - k) k
          else best in
        scan_row blo bhi i j2len idxs' newj2len best
  end.

(** The outer [for i in range(alo, ahi)] loop. *)
Fixpoint scan_rows (sm : SequenceMatcher) (blo bhi : nat) (rows : list nat)
    (j2len : gmap nat nat) (best : Match) : Match :=
  match rows with
  | [] => best
  | i :: rows' =>
      let idxs :=
        match seq_a sm !! i with
        | Some x => default [] (b2j sm !! x)
        | None => []
        end in
      let '(newj2len, best) := scan_row blo bhi i j2len idxs ∅ best in
      scan_rows sm blo bhi rows' newj2len best
  end.

(** [a[i] == b[j]] for indices in range. *)
Definition same_at (sm : SequenceMatcher) (i j : nat) : bool :=
  match seq_a sm !! i, seq_b sm !! j with
  | Some x, Some y => bool_decide (x = y)
  | _, _ => false
  end.

Definition junk_at (sm : SequenceMatcher) (j : nat) : bool :=
  match seq_b sm !! j with
  | Some y => isbjunk sm y
  | None => false
  end.

(** [while besti > alo and bestj > blo and isbjunk(b[bestj-1]) == junk
           and a[besti-1] == b[bestj-1]]; [junk] selects between the
    non-junk and the junk extension. *)
Fixpoint extend_left (sm : SequenceMatcher) (junk : bool) (alo blo : nat)
    (besti bestj bestsize : nat) {struct besti} : Match :=
  match besti, bestj with
  | S i', S j' =>
      if (alo <? besti)%nat && (blo <? bestj)%nat
         && eqb (junk_at sm j') junk && same_at sm i' j'
      then extend_left sm junk alo blo i' j' (S bestsize)
      else mkMatch besti bestj bestsize
  | _, _ => mkMatch besti bestj bestsize
  end.

(** [while besti+bestsize < ahi and bestj+bestsize < bhi and ...]; [gap]
    is [ahi - (besti + bestsize)], which every iteration decreases. *)
Fixpoint extend_right_loop (sm : SequenceMatcher) (junk : bool) (bhi : nat)
    (besti bestj bestsize gap : nat) {struct gap} : Match :=
  match gap with
  | O => mkMatch besti bestj bestsize
  | S gap' =>
      if (bestj + bestsize <? bhi)%nat
         && eqb (junk_at sm (bestj + bestsize)) junk
         && same_at sm (besti + bestsize) (bestj + bestsize)
      then extend_right_loop sm junk bhi besti bestj (S bestsize) gap'
      else mkMatch besti bestj bestsize
  end.

Definition extend_right (sm : SequenceMatcher) (junk : bool) (ahi bhi : nat)
    (m : Match) : Match :=
  extend_right_loop sm junk bhi (a m) (b m) (size m) (ahi - (a m + size m)).

Definition find_longest_match (sm : SequenceMatcher) (alo ahi blo bhi : nat)
    : Match :=
  let best := scan_rows sm blo bhi (seq alo (ahi - alo)) ∅ (mkMatch alo blo 0) in
  let best := extend_left sm false alo blo (a best) (b best) (size best) in
  let best := extend_right sm false ahi bhi best in
  let best := extend_left sm true alo blo (a best) (b best) (size best) in
  extend_right sm true ahi bhi best.

End difflib.

(** ** The transcript merge (lines 158-191) *)

Record TranscriptionManager : Type := mkTranscriptionManager {
  last_word_end : Q;
  chunk_number : Z;
  prev_words : list Word;
}.

(** Lines 163-178: the index at which the current chunk's words start to be
    new. *)
Definition trim_index (self : TranscriptionManager) (words : list Word)
    : result nat :=
  prev_overlap ← prev_overlap (prev_words self) ;
  curr_overlap ← curr_overlap words ;
  let prev_words_only := prev_overlap.*1 in
  let curr_words_only := curr_overlap.*1 in
  let sm := difflib.new prev_words_only curr_words_only true in
  let match_ :=
    difflib.find_longest_match sm 0 (length prev_words_only)
      0 (length curr_words_only) in
  Ok (if (2 <? difflib.size match_)%nat
      then (difflib.b match_ + difflib.size match_)%nat
      else 0%nat).

(** Line 181: [words[trim_index:]]. *)
Definition new_words (self : TranscriptionManager) (words : list Word)
    : result (list Word) :=
  trim_index ← trim_index self words ;
  Ok (drop trim_index words).

(** The text handed to [print] at line 188. *)
Definition fragment (new_words : list Word) : string :=
  " " +:+ Text.join " " (map (λ w, Text.strip (word w)) new_words).

(** [_update_transcript]: the manager afterwards and the text written to
    standard output. *)
Definition update_transcript (self : TranscriptionManager) (words : list Word)
    : result (TranscriptionManager * string) :=
  match words with
  | [] => Ok (self, EmptyString)
  | _ =>
      new_words ← new_words self words ;
      let '(self, out) :=
        match last new_words with
        | Some w =>
            (mkTranscriptionManager (end_ w) (chunk_number self) (prev_words self),
             fragment new_words)
        | None => (self, EmptyString)
        end in
      Ok (mkTranscriptionManager (last_word_end self) (chunk_number self) words, out)
  end.

Definition init_manager : TranscriptionManager :=
  mkTranscriptionManager 0 0 [].

(** ** The candidate lists as filters *)

(** The condition of line 165, with the last word of a non-empty list. *)
Definition in_prev_tail (prev_words : list Word) (w : Word) : bool :=
  match last prev_words with
  | Some l => Qgtb (end_ w) (end_ l - OVERLAP_SEC)
  | None => false
  end.

Definition in_curr_head (w : Word) : bool := Qltb (start w) OVERLAP_SEC.

(** The token lists handed to the matcher. *)
Definition P (prev_words : list Word) : list string :=
  normalize <$> filter (λ w, in_prev_tail prev_words w) prev_words.

Definition C (words : list Word) : list string :=
  normalize <$> filter (λ w, in_curr_head w) words.

Definition longest_match (prev_words words : list Word) : difflib.Match :=
  difflib.find_longest_match (difflib.new (P prev_words) (C words) true)
    0 (length (P prev_words)) 0 (length (C words)).

(** ** Contiguous common runs and the matcher's table *)

(** [xs[i:i+n] == ys[j:j+n]], both slices of full length [n]. *)
Definition common_run (xs ys : list string) (i j n : nat) : Prop :=
  i + n ≤ length xs ∧ j + n ≤ length ys ∧ take n (drop i xs) = take n (drop j ys).

(** The length of the longest common run that ends with [xs[i]] and [ys[j]];
    this is the quantity the matcher's [j2len] tabulates row by row. *)
Fixpoint run_ending (xs ys : list string) (i j : nat) {struct i} : nat :=
  match xs !! i, ys !! j with
  | Some x, Some y =>
      if decide (x = y) then
        match i, j with
        | S i', S j' => S (run_ending xs ys i' j')
        | _, _ => 1
        end
      else 0
  | _, _ => 0
  end.

(** Cells of the table in the order the two loops visit them. *)
Definition visited_before (i j i' j' : nat) : Prop := i < i' ∨ (i = i' ∧ j < j').

(** The positions [lo <= j < lo + len] of [x] in [ys], ascending. *)
Definition occurrences (ys : list string) (x : string) (lo len : nat) : list nat :=
  filter (λ j, ys !! j = Some x) (seq lo len).

(** [j2len] on entry to row [i] holds the entries of row [i-1]. *)
Definition tabulated (xs ys : list string) (i : nat) (j2len : gmap nat nat)
    : Prop :=
  ∀ j, default 0 (j2len !! j)
       = match i with O => 0 | S i' => run_ending xs ys i' j end.

(** The best match when every cell before [(fi, fj)] has been visited: it
    bounds all visited cells and was recorded at the first cell reaching
    its size. *)
Record best_at (xs ys : list string) (fi fj : nat) (m : difflib.Match)
    : Prop := mk_best_at {
  best_upper :
    ∀ i j, visited_before i j fi fj → run_ending xs ys i j ≤ difflib.size m;
  best_first :
    (difflib.size m = 0 ∧ difflib.a m = 0 ∧ difflib.b m = 0) ∨
    (0 < difflib.size m ∧ ∃ i j,
       visited_before i j fi fj ∧ run_ending xs ys i j = difflib.size m ∧
       difflib.a m = i + 1 - difflib.size m ∧
       difflib.b m = j + 1 - difflib.size m ∧
       ∀ i' j', visited_before i' j' i j →
                run_ending xs ys i' j' < difflib.size m);
}.

(** [m] is a longest contiguous common run of [xs] and [ys]; among the
    longest it starts earliest in [xs] and, of those, earliest in [ys]; an
    empty match is reported at the origin. *)
Definition longest_common_run (xs ys : list string) (m : difflib.Match) : Prop :=
  common_run xs ys (difflib.a m) (difflib.b m) (difflib.size m) ∧
  (∀ i j n, common_run xs ys i j n → n ≤ difflib.size m) ∧
  (∀ i j, 0 < difflib.size m → common_run xs ys i j (difflib.size m) →
     difflib.a m < i ∨ (difflib.a m = i ∧ difflib.b m ≤ j)) ∧
  (difflib.size m = 0 → difflib.a m = 0 ∧ difflib.b m = 0).

(** ** Timestamps and chronological order *)

#[global] Instance Qlt_dec : RelDecision Qlt.
Proof.
  intros x y. destruct (Qlt_le_dec x y) as [Hlt|Hle]; [by left|right].
  by apply Qle_not_lt.
Defined.

(** Words in chronological order: start times never decrease. *)
Fixpoint chronological (words : list Word) : bool :=
  match words with
  | w :: (w' :: _) as rest => Qle_bool (start w) (start w') && chronological rest
  | _ => true
  end.

(** What line 188 writes for the new words: nothing when there are none. *)
Definition printed (new_words : list Word) : string :=
  match new_words with
  | [] => EmptyString
  | _ => fragment new_words
  end.

(** ** The recorder's chunk accumulator (lines 66-86) *)

Definition bytes : Type := list Byte.byte.

Definition newline : string := String (ascii_of_nat 10) EmptyString.

(** [str(e)] *)
Definition exn_message (e : exn) : string :=
  match e with
  | IndexError => "list index out of range"
  | OtherError msg => msg
  end.

Module AudioRecorder.

Record t : Type := mk {
  chunk_queue : list bytes;
  current_chunk : list bytes;
  total_samples : Z;
  samples_per_chunk : Z;
  chunk_number : Z;
}.

(** [__init__] followed by [start]. *)
Definition start : t := mk [] [] 0 (RATE * CHUNK_LEN_SEC) 0.

(** One iteration of the loop whose [stream.read(CHUNK_SIZE)] returned
    [data]. *)
Definition record_step (self : t) (data : bytes) : t :=
  let current_chunk := current_chunk self ++ [data] in
  let total_samples := (total_samples self + CHUNK_SIZE)%Z in
  if (samples_per_chunk self <=? total_samples)%Z then
    mk (chunk_queue self ++ [concat current_chunk]) [] 0
      (samples_per_chunk self) (chunk_number self + 1)
  else
    mk (chunk_queue self) current_chunk total_samples
      (samples_per_chunk self) (chunk_number self).

(** [_record_loop] over the reads the device delivers while [recording]
    holds; a failing read is reported and leaves the loop. *)
Fixpoint record_loop (reads : list (result bytes)) (self : t) : t * string :=
  match reads with
  | [] => (self, EmptyString)
  | Ok data :: reads' => record_loop reads' (record_step self data)
  | Raise e :: _ =>
      (self, "Error in recording loop: " +:+ exn_message e +:+ newline)
  end.

End AudioRecorder.

(** ** The processing loop (lines 109-156) *)

(** A transcription response; [words] is [None] when the attribute is
    missing. *)
Record Response : Type := mkResponse { words : option (list Word) }.

Section processing.
(** The body of the [try] block of [_transcribe_chunk]: writing the WAV
    file and calling the remote service, for the [n]-th call. *)
Context (service : nat → bytes → result Response).

Record Pipeline : Type := mkPipeline {
  manager : TranscriptionManager;
  calls : nat;
  console : string;
}.

Definition transcribe_chunk (n : nat) (audio_data : bytes)
    : option Response * string :=
  match service n audio_data with
  | Ok response => (Some response, EmptyString)
  | Raise e => (None, "Error transcribing chunk: " +:+ exn_message e +:+ newline)
  end.

(** One iteration of [_process_loop] that dequeued [audio_data]. *)
Definition process_step (p : Pipeline) (audio_data : bytes) : Pipeline :=
  let self := manager p in
  let self := mkTranscriptionManager (last_word_end self)
                (chunk_number self + 1) (prev_words self) in
  let '(response, log) := transcribe_chunk (calls p) audio_data in
  let console := console p +:+ log in
  match response with
  | Some (mkResponse (Some ws)) =>
      match update_transcript self ws with
      | Ok (self, out) => mkPipeline self (S (calls p)) (console +:+ out)
      | Raise e =>
          mkPipeline self (S (calls p))
            (console +:+ "Error in processing loop: " +:+ exn_message e
               +:+ newline)
      end
  | _ => mkPipeline self (S (calls p)) console
  end.

(** [_process_loop] over the chunks queued, oldest first. *)
Definition process_loop (queue : list bytes) (p : Pipeline) : Pipeline :=
  foldl process_step p queue.

End processing.

(** ** Predicates of the specification *)

(** The word's end time falls within [OVERLAP_SEC] seconds of the end time
    of the last word of the previous chunk. *)
Definition within_tail (prev_words : list Word) (w : Word) : Prop :=
  match last prev_words with
  | Some l => (end_ l - end_ w < OVERLAP_SEC)%Q
  | None => False
  end.

(** The word starts less than [OVERLAP_SEC] seconds after the chunk start
    (time 0 of the chunk-relative clock). *)
Definition within_head (w : Word) : Prop := (start w - 0 < OVERLAP_SEC)%Q.

#[global] Instance within_tail_dec (prev_words : list Word) (w : Word) :
  Decision (within_tail prev_words w).
Proof. unfold within_tail. destruct (last prev_words); apply _. Defined.

#[global] Instance within_head_dec (w : Word) : Decision (within_head w).
Proof. unfold within_head. apply _. Defined.

(** The merge trims at the end of the longest common run [m] of the two
    candidate lists when that run is longer than two tokens, and emits the
    whole chunk otherwise. *)
Definition overlap_trim_spec (self : TranscriptionManager) (words : list Word)
    : Prop :=
  ∃ m : difflib.Match,
    longest_common_run (P (prev_words self)) (C words) m ∧
    C words = take (length (C words)) (normalize <$> words) ∧
    (difflib.size m ≤ 2 →
       trim_index self words = Ok 0 ∧ new_words self words = Ok words ∧
       ∃ self', update_transcript self words = Ok (self', printed words)) ∧
    (2 < difflib.size m →
       let k := difflib.b m + difflib.size m in
       trim_index self words = Ok k ∧ new_words self words = Ok (drop k words) ∧
       ∃ self', update_transcript self words = Ok (self', printed (drop k words))).

(** The number of samples in a chunk: the first multiple of [CHUNK_SIZE]
    that reaches [RATE * CHUNK_LEN_SEC]. *)
Definition chunk_samples : Z :=
  (CHUNK_SIZE * ((RATE * CHUNK_LEN_SEC + CHUNK_SIZE - 1) / CHUNK_SIZE))%Z.

(** The bytes of one successful [stream.read(CHUNK_SIZE)]. *)
Definition full_read (data : bytes) : Prop :=
  Z.of_nat (length data) = (CHUNK_SIZE * SAMPLE_WIDTH * CHANNELS)%Z.

Record recorder_inv (self : AudioRecorder.t) : Prop := mk_recorder_inv {
  inv_threshold : AudioRecorder.samples_per_chunk self = (RATE * CHUNK_LEN_SEC)%Z;
  inv_total :
    AudioRecorder.total_samples self
    = (CHUNK_SIZE * Z.of_nat (length (AudioRecorder.current_chunk self)))%Z;
  inv_below :
    (AudioRecorder.total_samples self < AudioRecorder.samples_per_chunk self)%Z;
  inv_blocks : Forall full_read (AudioRecorder.current_chunk self);
  inv_queue :
    Forall (λ c, Z.of_nat (length c) = (chunk_samples * SAMPLE_WIDTH * CHANNELS)%Z)
      (AudioRecorder.chunk_queue self);
}.

(** ** Concrete chunks *)

Definition fox_prev : list Word :=
  [mkWord "the" 2.9 3.0; mkWord " Quick" 3.0 3.2; mkWord "brown " 3.2 3.5;
   mkWord "FOX" 3.5 3.8].

Definition fox_chunk : list Word :=
  [mkWord "quick" 0.1 0.4; mkWord "brown" 0.4 0.7; mkWord "fox" 0.7 0.75;
   mkWord " Jumps " 0.7 1.0; mkWord "over" 1.0 1.2].

Definition hello_chunk : list Word :=
  [mkWord "hello" 0.0 0.5; mkWord "world" 0.5 1.0].

(** A previous chunk ending in three repetitions of a word, and a chunk of
    200 words, all starting within the first second, 199 of them that same
    word. *)
Definition popular_prev : list Word :=
  [mkWord "x" 0 0.5; mkWord "a" 0.5 0.6; mkWord "a" 0.6 0.7; mkWord "a" 0.7 0.8].

Definition popular_chunk : list Word :=
  mkWord "y" 0 0.1 :: replicate 199 (mkWord "a" 0.5 0.6).

Definition silence : bytes := replicate 2048 Byte.x00.

Definition failing_service (n : nat) (audio_data : bytes) : result Response :=
  Raise (OtherError "Connection error.").

(** The pipeline after a first chunk transcribed as [hello_chunk]. *)
Definition after_hello : Pipeline :=
  mkPipeline (mkTranscriptionManager 1.0 1 hello_chunk) 1 " hello world".

(** A previous chunk whose last three words are heard again, and alone, at
    the start of the next chunk. *)
Definition repeat_prev : list Word :=
  [mkWord "the" 0.2 0.5; mkWord " Quick" 3.0 3.2; mkWord "brown " 3.2 3.5;
   mkWord "FOX" 3.5 3.8].

Definition repeat_chunk : list Word :=
  [mkWord "quick" 0.1 0.4; mkWord "brown" 0.4 0.7; mkWord "fox" 0.7 0.9].

(** The recorder's counters between two iterations: [total_samples] counts
    [CHUNK_SIZE] per accumulated read and is below the threshold. *)
Record recorder_counts (self : AudioRecorder.t) : Prop := mk_recorder_counts {
  counts_threshold :
    AudioRecorder.samples_per_chunk self = (RATE * CHUNK_LEN_SEC)%Z;
  counts_total :
    AudioRecorder.total_samples self
    = (CHUNK_SIZE * Z.of_nat (length (AudioRecorder.current_chunk self)))%Z;
  counts_below : length (AudioRecorder.current_chunk self) < 63;
}.

(** 62 reads of silence followed by one read of full-scale samples. *)
Definition beep : bytes := replicate 2048 Byte.xff.

Definition beep_reads : list bytes := replicate 62 silence ++ [beep].

(** A first chunk whose words come with whitespace around them. *)
Definition padded_chunk : list Word :=
  [mkWord " Hello" 0.0 0.4; mkWord "world " 0.4 0.9].

(** The words written one after the other, in list order, each preceded by
    one space and with the whitespace at its ends removed. *)
Definition written_words (ws : list Word) : string :=
  foldr (λ w rest, " " +:+ Text.strip (word w) +:+ rest) EmptyString ws.

(** The data of the reads that succeed before the first failing read. *)
Fixpoint delivered (reads : list (result bytes)) : list bytes :=
  match reads with
  | Ok data :: reads' => data :: delivered reads'
  | _ => []
  end.

(** The recorder after the reads [done]: the queued chunks are the
    consecutive groups of 63 reads, the accumulator holds the reads since
    the last group. *)
Definition recorder_groups (done : list bytes) (self : AudioRecorder.t) : Prop :=
  recorder_counts self
  ∧ ∃ groups : list (list bytes),
      AudioRecorder.chunk_queue self = (λ g, concat g) <$> groups
      ∧ Forall (λ g, length g = 63) groups
      ∧ done = concat groups ++ AudioRecorder.current_chunk self.

(** * Proofs *)

(** ** Text *)

Module TextFacts.
Import Text.

Lemma append_cons (c : ascii) (s1 s2 : string) :
  String c s1 +:+ s2 = String c (s1 +:+ s2).
Proof. reflexivity. Qed.

Lemma append_nil_l (s : string) : EmptyString +:+ s = s.
Proof. reflexivity. Qed.

Lemma append_nil_r (s : string) : s +:+ EmptyString = s.
Proof.
  induction s as [|c s IH]; [done|]. by rewrite append_cons, IH.
Qed.

Lemma append_assoc (s1 s2 s3 : string) :
  (s1 +:+ s2) +:+ s3 = s1 +:+ (s2 +:+ s3).
Proof.
  induction s1 as [|c s1 IH]; [done|].
  by rewrite !append_cons, IH.
Qed.

Lemma lstrip_split (s : string) :
  ∃ l, s = l +:+ lstrip s ∧ all_space l = true.
Proof.
  induction s as [|c s IH]; simpl.
  - exists EmptyString. split; reflexivity.
  - destruct (isspace c) eqn:Hc.
    + destruct IH as (l & Hl & Hs). exists (String c l).
      rewrite append_cons. simpl. rewrite Hc, Hs, <- Hl. done.
    + exists EmptyString. split; reflexivity.
Qed.

Lemma rstrip_split (s : string) :
  ∃ r, s = rstrip s +:+ r ∧ all_space r = true.
Proof.
  induction s as [|c s IH]; simpl.
  - exists EmptyString. split; reflexivity.
  - destruct IH as (r & Hr & Hs).
    destruct (rstrip s) as [|c' t] eqn:Ht.
    + rewrite append_nil_l in Hr. subst s. destruct (isspace c) eqn:Hc.
      * exists (String c r). simpl. by rewrite Hc, Hs.
      * exists r. done.
    + exists r. rewrite append_cons, <- Hr. done.
Qed.

(** [strip] only removes whitespace at the two ends. *)
Lemma strip_split (s : string) :
  ∃ l r, s = l +:+ strip s +:+ r ∧ all_space l = true ∧ all_space r = true.
Proof.
  destruct (lstrip_split s) as (l & Hl & Hls).
  destruct (rstrip_split (lstrip s)) as (r & Hr & Hrs).
  exists l, r. split; [|done]. unfold strip.
  by rewrite <- Hr, <- Hl.
Qed.

End TextFacts.

(** ** The overlap regions never raise *)

Lemma comprehension_filter {A B : Type} (f : A → B) (c : A → result bool)
    (c' : A → bool) (l : list A) :
  (∀ w, w ∈ l → c w = Ok (c' w)) →
  comprehension f c l = Ok (f <$> filter (λ w, c' w) l).
Proof.
  induction l as [|w l IH]; intros Hc; simpl; [done|].
  rewrite (Hc w) by left. simpl.
  rewrite IH by (intros w' Hw'; apply Hc; by right). simpl.
  rewrite filter_cons. by destruct (c' w).
Qed.

Lemma prev_overlap_ok (prev_words : list Word) :
  prev_overlap prev_words
  = Ok ((λ w, (normalize w, end_ w))
          <$> filter (λ w, in_prev_tail prev_words w) prev_words).
Proof.
  unfold prev_overlap. apply comprehension_filter.
  intros w Hw. unfold getitem_last, in_prev_tail.
  destruct (last prev_words) as [l|] eqn:Hl; [done|].
  apply last_None in Hl. subst. by apply elem_of_nil in Hw.
Qed.

Lemma curr_overlap_ok (words : list Word) :
  curr_overlap words
  = Ok ((λ w, (normalize w, start w)) <$> filter (λ w, in_curr_head w) words).
Proof. unfold curr_overlap. by apply comprehension_filter. Qed.

Lemma trim_index_ok (self : TranscriptionManager) (words : list Word) :
  trim_index self words
  = Ok (let m := longest_match (prev_words self) words in
        if (2 <? difflib.size m)%nat then (difflib.b m + difflib.size m)%nat
        else 0%nat).
Proof.
  unfold trim_index. rewrite prev_overlap_ok, curr_overlap_ok. simpl.
  unfold longest_match, P, C. by rewrite <- !list_fmap_compose.
Qed.

(** ** Common runs and table entries *)

Section runs.
Context (xs ys : list string).

Lemma run_ending_eq (i j : nat) :
  run_ending xs ys i j =
  match xs !! i, ys !! j with
  | Some x, Some y =>
      if decide (x = y) then
        match i, j with
        | S i', S j' => S (run_ending xs ys i' j')
        | _, _ => 1
        end
      else 0
  | _, _ => 0
  end.
Proof. by destruct i. Qed.

Lemma run_ending_same (i j : nat) (x : string) :
  xs !! i = Some x → ys !! j = Some x →
  run_ending xs ys i j =
  match i, j with
  | S i', S j' => run_ending xs ys i' j'
  | _, _ => 0
  end + 1.
Proof.
  intros Hx Hy. rewrite run_ending_eq, Hx, Hy, decide_True by done.
  destruct i, j; lia.
Qed.

Lemma run_ending_differ (i j : nat) :
  xs !! i ≠ ys !! j ∨ xs !! i = None → run_ending xs ys i j = 0.
Proof.
  intros H. rewrite run_ending_eq.
  destruct (xs !! i) as [x|], (ys !! j) as [y|]; try done.
  - rewrite decide_False; [done|]. intros ->. by destruct H.
Qed.

Lemma run_ending_le (i j : nat) :
  run_ending xs ys i j ≤ S i ∧ run_ending xs ys i j ≤ S j.
Proof.
  revert j. induction i as [|i IH]; intros j; rewrite run_ending_eq;
    destruct (xs !! _), (ys !! j); try case_decide; try lia.
  destruct j; [lia|]. specialize (IH j). lia.
Qed.

Lemma run_ending_lookup (i j k : nat) :
  k < run_ending xs ys i j →
  ∃ x, xs !! (i - k) = Some x ∧ ys !! (j - k) = Some x.
Proof.
  revert j k. induction i as [|i IH]; intros j k; rewrite run_ending_eq;
    destruct (xs !! _) as [x|] eqn:Hx, (ys !! j) as [y|] eqn:Hy;
    try case_decide; try lia; subst.
  - intros Hk. assert (k = 0) as -> by (destruct j; lia).
    rewrite Nat.sub_0_r. eauto.
  - intros Hk. destruct k as [|k].
    + rewrite !Nat.sub_0_r. eauto.
    + destruct j as [|j]; [lia|]. simpl. apply IH. lia.
Qed.

Lemma run_ending_ge (i j n : nat) :
  (∀ k, k < n → ∃ x, xs !! (i - k) = Some x ∧ ys !! (j - k) = Some x) →
  n ≤ S i → n ≤ S j → n ≤ run_ending xs ys i j.
Proof.
  revert j n. induction i as [|i IH]; intros j n Hrun Hi Hj;
    (destruct n as [|n]; [lia|]);
    destruct (Hrun 0) as (x & Hx & Hy); try lia;
    rewrite Nat.sub_0_r in Hx, Hy;
    rewrite (run_ending_same _ _ x) by done.
  - lia.
  - destruct j as [|j]; [lia|].
    assert (n ≤ run_ending xs ys i j); [|lia].
    apply IH; [|lia..]. intros k Hk. apply (Hrun (S k)). lia.
Qed.

Lemma common_run_lookup (i j n k : nat) :
  common_run xs ys i j n → k < n →
  ∃ x, xs !! (i + k) = Some x ∧ ys !! (j + k) = Some x.
Proof.
  intros (Hi & Hj & Heq) Hk.
  destruct (lookup_lt_is_Some_2 xs (i + k)) as [x Hx]; [lia|].
  exists x. split; [done|].
  by rewrite <- lookup_drop, <- (lookup_take_lt _ n), <- Heq,
    lookup_take_lt, lookup_drop by done.
Qed.

Lemma common_run_intro (i j n : nat) :
  i + n ≤ length xs → j + n ≤ length ys →
  (∀ k, k < n → xs !! (i + k) = ys !! (j + k)) →
  common_run xs ys i j n.
Proof.
  intros Hi Hj Heq. split_and!; [done..|].
  apply list_eq. intros k. destruct (decide (k < n)).
  - rewrite !lookup_take_lt, !lookup_drop by done. by apply Heq.
  - by rewrite !lookup_take_ge by lia.
Qed.

(** A run of length [n] ends in a cell whose table entry is at least [n]. *)
Lemma common_run_ending (i j n : nat) :
  common_run xs ys i j n → 0 < n →
  n ≤ run_ending xs ys (i + n - 1) (j + n - 1).
Proof.
  intros Hrun Hn. apply run_ending_ge; [|lia..].
  intros k Hk.
  destruct (common_run_lookup i j n (n - 1 - k) Hrun) as (x & Hx & Hy); [lia|].
  exists x. split; [rewrite <- Hx | rewrite <- Hy]; f_equal; lia.
Qed.

(** A table entry [n] is witnessed by a run of length [n]. *)
Lemma run_ending_common_run (i j n : nat) :
  0 < n → n ≤ run_ending xs ys i j →
  common_run xs ys (i + 1 - n) (j + 1 - n) n.
Proof.
  intros Hpos Hn. pose proof (run_ending_le i j) as [Hi Hj].
  destruct (run_ending_lookup i j 0) as (x0 & Hx0 & Hy0); [lia|].
  rewrite Nat.sub_0_r in Hx0, Hy0.
  apply lookup_lt_Some in Hx0, Hy0.
  apply common_run_intro; [lia..|].
  intros k Hk.
  destruct (run_ending_lookup i j (n - 1 - k)) as (x & Hx & Hy); [lia|].
  replace (i + 1 - n + k) with (i - (n - 1 - k)) by lia.
  replace (j + 1 - n + k) with (j - (n - 1 - k)) by lia.
  by rewrite Hx, Hy.
Qed.

End runs.

(** ** The index [b2j] *)

Lemma filter_ext_elem {A : Type} (P Q : A → Prop)
    `{!∀ x, Decision (P x)} `{!∀ x, Decision (Q x)} (l : list A) :
  (∀ x, x ∈ l → P x ↔ Q x) → filter P l = filter Q l.
Proof.
  induction l as [|x l IH]; intros Hext; [done|].
  rewrite !filter_cons, IH by (intros y Hy; apply Hext; by right).
  pose proof (Hext x ltac:(by left)) as Hx.
  destruct (decide (P x)), (decide (Q x)); tauto || done.
Qed.

Lemma index_elements_lookup (ys : list string) (x : string) :
  default [] (difflib.index_elements ys !! x) = occurrences ys x 0 (length ys).
Proof.
  induction ys as [|y ys IH] using rev_ind; [done|].
  unfold difflib.index_elements, occurrences in *.
  rewrite length_app, seq_app, zip_with_app, foldl_app by by rewrite length_seq.
  rewrite filter_app. simpl.
  set (m := foldl _ ∅ (zip (seq 0 (length ys)) ys)) in *.
  rewrite (filter_ext_elem _ (λ j, ys !! j = Some x) (seq 0 (length ys))).
  2:{ intros j Hj%elem_of_seq. by rewrite lookup_app_l by lia. }
  rewrite filter_cons, filter_nil, list_lookup_middle by done.
  destruct (decide (y = x)) as [->|Hne].
  - rewrite lookup_insert_eq, decide_True by done. simpl. by rewrite IH.
  - rewrite lookup_insert_ne, decide_False, app_nil_r by congruence. done.
Qed.

(** Below 200 elements the popularity heuristic is inactive and [b2j] is the
    plain index. *)
Lemma b2j_small (xs ys : list string) (x : string) :
  length ys < 200 →
  default [] (difflib.b2j (difflib.new xs ys true) !! x)
  = occurrences ys x 0 (length ys).
Proof.
  intros Hlen. unfold difflib.new, difflib.chain_b, difflib.popular_elements.
  replace (200 <=? length ys) with false by (symmetry; apply Nat.leb_gt; lia).
  simpl. rewrite map_filter_id; [apply index_elements_lookup|].
  intros ? ? _. set_solver.
Qed.

Lemma bjunk_new (xs ys : list string) (autojunk : bool) :
  difflib.bjunk (difflib.new xs ys autojunk) = ∅.
Proof. done. Qed.

Lemma seq_a_new (xs ys : list string) (autojunk : bool) :
  difflib.seq_a (difflib.new xs ys autojunk) = xs.
Proof. done. Qed.

Lemma seq_b_new (xs ys : list string) (autojunk : bool) :
  difflib.seq_b (difflib.new xs ys autojunk) = ys.
Proof. done. Qed.

(** ** The dynamic programme of [find_longest_match] *)

Section matcher.
Context (xs ys : list string).

Local Abbreviation cell := (run_ending xs ys).
Local Abbreviation tabulated := (tabulated xs ys).
Local Abbreviation best_at := (best_at xs ys).

Lemma best_at_start : best_at 0 0 (difflib.mkMatch 0 0 0).
Proof. split; [unfold visited_before; lia | by left]. Qed.

Lemma best_at_step (i lo k : nat) (best : difflib.Match) :
  best_at i lo best → cell i lo = k →
  best_at i (S lo)
    (if difflib.size best <? k
     then difflib.mkMatch (i + 1 - k) (lo + 1 - k) k else best).
Proof.
  intros [Hup Hfirst] Hk.
  assert (∀ i' j', visited_before i' j' i (S lo) →
            visited_before i' j' i lo ∨ (i' = i ∧ j' = lo)) as Hcases
    by (unfold visited_before; lia).
  destruct (difflib.size best <? k) eqn:Hlt.
  - apply Nat.ltb_lt in Hlt. split; simpl.
    + intros i' j' [Hv|[-> ->]]%Hcases; [|lia]. specialize (Hup _ _ Hv). lia.
    + right. split; [lia|]. exists i, lo. split_and!; try done.
      * unfold visited_before; lia.
      * intros i' j' Hv. specialize (Hup _ _ Hv). lia.
  - apply Nat.ltb_ge in Hlt. split.
    + intros i' j' [Hv|[-> ->]]%Hcases; [by apply Hup | lia].
    + destruct Hfirst as [?|(Hpos & i0 & j0 & Hv & ?)]; [by left|].
      right. split; [done|]. exists i0, j0. split; [|done].
      unfold visited_before in *; lia.
Qed.

Lemma best_at_next_row (i : nat) (best : difflib.Match) :
  best_at i (length ys) best → best_at (S i) 0 best.
Proof.
  intros [Hup Hfirst]. split.
  - intros i' j' Hv. destruct (decide (visited_before i' j' i (length ys))) as [|Hn];
      [by apply Hup|].
    rewrite run_ending_differ; [lia|].
    destruct (xs !! i') eqn:Hx; [left|by right].
    rewrite lookup_ge_None_2; [done|]. unfold visited_before in *; lia.
  - destruct Hfirst as [?|(Hpos & i0 & j0 & Hv & ?)]; [by left|].
    right. split; [done|]. exists i0, j0. split; [|done].
    unfold visited_before in *; lia.
Qed.

Lemma j2lenget_tabulated (i j : nat) (j2len : gmap nat nat) (x : string) :
  tabulated i j2len → xs !! i = Some x → ys !! j = Some x →
  difflib.j2lenget j2len j + 1 = cell i j.
Proof.
  intros Htab Hx Hy. rewrite (run_ending_same _ _ _ _ x) by done.
  destruct j as [|j]; simpl; [by destruct i|].
  rewrite Htab. by destruct i.
Qed.

Lemma scan_row_spec (i : nat) (x : string) (j2len : gmap nat nat) :
  xs !! i = Some x → tabulated i j2len →
  ∀ len lo newj2len best,
    lo + len = length ys →
    (∀ j, default 0 (newj2len !! j) = if decide (j < lo) then cell i j else 0) →
    best_at i lo best →
    ∃ newj2len' best',
      difflib.scan_row 0 (length ys) i j2len (occurrences ys x lo len)
        newj2len best = (newj2len', best')
      ∧ tabulated (S i) newj2len' ∧ best_at (S i) 0 best'.
Proof.
  intros Hx Htab. induction len as [|len IH]; intros lo newj best Hlen Hnew Hbest.
  - exists newj, best. split; [done|]. split.
    + intros j. rewrite Hnew. case_decide; [done|].
      rewrite run_ending_differ; [done|]. left.
      rewrite Hx, lookup_ge_None_2; [done | lia].
    + apply best_at_next_row. by replace (length ys) with lo by lia.
  - unfold occurrences. rewrite <- cons_seq, filter_cons.
    fold (occurrences ys x (S lo) len).
    destruct (decide (ys !! lo = Some x)) as [Hy|Hy].
    + simpl. replace (length ys <=? lo) with false
        by (symmetry; apply Nat.leb_gt; lia).
      rewrite (j2lenget_tabulated i lo j2len x) by done.
      apply IH; [lia| |by apply best_at_step].
      intros j. destruct (decide (j = lo)) as [->|Hne].
      * rewrite lookup_insert_eq, decide_True by lia. done.
      * rewrite lookup_insert_ne, Hnew by done. repeat case_decide; done || lia.
    + assert (cell i lo = 0) as Hzero.
      { apply run_ending_differ. left. rewrite Hx. congruence. }
      apply IH; [lia| |].
      * intros j. rewrite Hnew. repeat case_decide; try done || lia.
        by replace j with lo by lia.
      * apply (best_at_step i lo 0) in Hbest; [|done].
        by rewrite (proj2 (Nat.ltb_ge _ 0)) in Hbest by lia.
Qed.

Lemma scan_rows_spec :
  length ys < 200 →
  ∀ len i j2len best,
    i + len = length xs → tabulated i j2len → best_at i 0 best →
    best_at (length xs) 0
      (difflib.scan_rows (difflib.new xs ys true) 0 (length ys) (seq i len)
         j2len best).
Proof.
  intros Hsmall. induction len as [|len IH]; intros i j2len best Hlen Htab Hbest.
  - simpl. by replace (length xs) with i by lia.
  - rewrite <- cons_seq. cbn [difflib.scan_rows]. rewrite seq_a_new.
    destruct (lookup_lt_is_Some_2 xs i) as [x Hx]; [lia|]. rewrite Hx.
    rewrite b2j_small by done.
    destruct (scan_row_spec i x j2len Hx Htab (length ys) 0 ∅ best)
      as (newj & best' & -> & Htab' & Hbest'); [done| |done|].
    { intros j. rewrite lookup_empty. case_decide; [lia|done]. }
    apply IH; [lia|done..].
Qed.

End matcher.

(** ** What [find_longest_match] returns *)

Section find_longest_match.
Context (xs ys : list string).

Lemma best_at_longest (m : difflib.Match) :
  best_at xs ys (length xs) 0 m → longest_common_run xs ys m.
Proof.
  intros [Hup Hfirst].
  assert (∀ i j, run_ending xs ys i j ≤ difflib.size m) as Hall.
  { intros i j. destruct (decide (i < length xs)).
    - apply Hup. unfold visited_before. lia.
    - rewrite run_ending_differ; [lia|]. right. apply lookup_ge_None_2. lia. }
  assert (∀ i j n, common_run xs ys i j n → n ≤ difflib.size m) as Hmax.
  { intros i j n Hrun. destruct (decide (n = 0)) as [->|]; [lia|].
    etrans; [apply (common_run_ending _ _ i j n Hrun); lia | apply Hall]. }
  split_and!; [|done| |].
  - destruct Hfirst as [(-> & -> & ->)|(Hpos & i0 & j0 & _ & Hcell & -> & -> & _)].
    + split_and!; simpl; lia || done.
    + apply run_ending_common_run; lia.
  - intros i j Hpos Hrun.
    destruct Hfirst as [?|(_ & i0 & j0 & _ & Hcell & -> & -> & Hstrict)]; [lia|].
    pose proof (common_run_ending _ _ i j _ Hrun Hpos) as Hge.
    pose proof (run_ending_le xs ys i0 j0) as [Hi0 Hj0].
    destruct (decide (visited_before (i + difflib.size m - 1)
                        (j + difflib.size m - 1) i0 j0)) as [Hv|Hv].
    + apply Hstrict in Hv. lia.
    + unfold visited_before in Hv. lia.
  - intros Hzero. destruct Hfirst as [?|?]; [tauto | lia].
Qed.

Lemma common_run_extend_left (i j n : nat) (x : string) :
  common_run xs ys (S i) (S j) n →
  xs !! i = Some x → ys !! j = Some x → common_run xs ys i j (S n).
Proof.
  intros Hrun Hx Hy. pose proof Hrun as (Hi & Hj & _).
  apply common_run_intro; [lia..|]. intros [|k] Hk.
  - by rewrite !Nat.add_0_r, Hx, Hy.
  - destruct (common_run_lookup _ _ _ _ _ k Hrun) as (z & Hzx & Hzy); [lia|].
    replace (i + S k) with (S i + k) by lia.
    replace (j + S k) with (S j + k) by lia. by rewrite Hzx, Hzy.
Qed.

Lemma common_run_extend_right (i j n : nat) (x : string) :
  common_run xs ys i j n →
  xs !! (i + n) = Some x → ys !! (j + n) = Some x → common_run xs ys i j (S n).
Proof.
  intros Hrun Hx Hy.
  pose proof (lookup_lt_Some _ _ _ Hx). pose proof (lookup_lt_Some _ _ _ Hy).
  apply common_run_intro; [lia..|]. intros k Hk.
  destruct (decide (k = n)) as [->|]; [by rewrite Hx, Hy|].
  destruct (common_run_lookup _ _ _ _ _ k Hrun) as (z & Hzx & Hzy); [lia|].
  by rewrite Hzx, Hzy.
Qed.

Lemma same_at_new (autojunk : bool) (i j : nat) :
  difflib.same_at (difflib.new xs ys autojunk) i j = true →
  ∃ x, xs !! i = Some x ∧ ys !! j = Some x.
Proof.
  unfold difflib.same_at. rewrite seq_a_new, seq_b_new.
  destruct (xs !! i) as [x|], (ys !! j) as [y|]; try done.
  intros ->%bool_decide_eq_true. eauto.
Qed.

(** A longest run cannot be extended, so the four extension loops leave
    it as it is. *)
Lemma extend_left_longest (autojunk junk : bool) (m : difflib.Match) :
  longest_common_run xs ys m →
  difflib.extend_left (difflib.new xs ys autojunk) junk 0 0
    (difflib.a m) (difflib.b m) (difflib.size m) = m.
Proof.
  intros (Hrun & Hmax & _). destruct m as [i j n]. simpl in *.
  destruct i as [|i], j as [|j]; try done. simpl.
  destruct (difflib.same_at _ i j) eqn:Hsame; [|by rewrite andb_false_r].
  apply same_at_new in Hsame as (x & Hx & Hy).
  pose proof (Hmax _ _ _ (common_run_extend_left _ _ _ x Hrun Hx Hy)). lia.
Qed.

Lemma extend_right_longest (autojunk junk : bool) (m : difflib.Match) :
  longest_common_run xs ys m →
  difflib.extend_right (difflib.new xs ys autojunk) junk
    (length xs) (length ys) m = m.
Proof.
  intros (Hrun & Hmax & _). destruct m as [i j n]. unfold difflib.extend_right.
  simpl in *. destruct (length xs - (i + n)); simpl; [done|].
  destruct (difflib.same_at _ (i + n) (j + n)) eqn:Hsame;
    [|by rewrite andb_false_r].
  apply same_at_new in Hsame as (x & Hx & Hy).
  pose proof (Hmax _ _ _ (common_run_extend_right _ _ _ x Hrun Hx Hy)). lia.
Qed.

(** While the popularity heuristic is inactive, [find_longest_match] over
    the whole of both sequences returns the longest common run. *)
Lemma find_longest_match_longest :
  length ys < 200 →
  longest_common_run xs ys
    (difflib.find_longest_match (difflib.new xs ys true)
       0 (length xs) 0 (length ys)).
Proof.
  intros Hsmall. unfold difflib.find_longest_match.
  rewrite Nat.sub_0_r.
  pose proof (scan_rows_spec xs ys Hsmall (length xs) 0 ∅
                (difflib.mkMatch 0 0 0)) as Hscan.
  apply best_at_longest in Hscan; [|done| |apply best_at_start].
  2:{ intros j. by rewrite lookup_empty. }
  rewrite (extend_left_longest true false) by done.
  rewrite (extend_right_longest true false) by done.
  rewrite (extend_left_longest true true) by done.
  by rewrite (extend_right_longest true true).
Qed.

End find_longest_match.

Lemma trim_index_total (self : TranscriptionManager) (words : list Word) :
  ∃ k, trim_index self words = Ok k.
Proof. eexists. apply trim_index_ok. Qed.

(** ** Chronological chunks *)

Lemma Qltb_lt (x y : Q) : Qltb x y = true ↔ (x < y)%Q.
Proof.
  unfold Qltb. rewrite negb_true_iff, <- not_true_iff_false, Qle_bool_iff.
  split; [apply Qnot_le_lt | apply Qlt_not_le].
Qed.

Lemma chronological_head (w : Word) (rest : list Word) :
  chronological (w :: rest) = true →
  ∀ w', w' ∈ rest → (start w <= start w')%Q.
Proof.
  revert w. induction rest as [|w1 rest IH]; intros w Hch w' Hin.
  - by apply elem_of_nil in Hin.
  - cbn [chronological] in Hch. apply andb_true_iff in Hch as [Hle Hch].
    apply Qle_bool_iff in Hle.
    apply elem_of_cons in Hin as [->|Hin]; [done|].
    eapply Qle_trans; [exact Hle | by apply IH].
Qed.

Lemma chronological_tail (w : Word) (rest : list Word) :
  chronological (w :: rest) = true → chronological rest = true.
Proof.
  destruct rest as [|w' rest]; [done|]. cbn [chronological].
  by intros [_ ?]%andb_true_iff.
Qed.

Lemma filter_none {A : Type} (P : A → Prop) `{!∀ x, Decision (P x)} (l : list A) :
  (∀ x, x ∈ l → ¬ P x) → filter P l = [].
Proof.
  induction l as [|x l IH]; intros Hnone; [done|].
  rewrite filter_cons, decide_False by (apply Hnone; by left).
  apply IH. intros y Hy. apply Hnone. by right.
Qed.

(** In a chronological chunk the words starting before [OVERLAP_SEC] form a
    prefix, so a position in the candidate list is a position in the chunk. *)
Lemma curr_head_prefix (words : list Word) :
  chronological words = true →
  filter (λ w, in_curr_head w) words
  = take (length (filter (λ w, in_curr_head w) words)) words.
Proof.
  induction words as [|w rest IH]; intros Hch; [done|].
  rewrite filter_cons. destruct (decide (in_curr_head w)) as [Hin|Hout].
  - simpl. f_equal. apply IH. by eapply chronological_tail.
  - rewrite filter_none; [done|]. intros w' Hw' Hin'. apply Hout.
    unfold in_curr_head in *. apply Is_true_true, Qltb_lt in Hin'.
    apply Is_true_true, Qltb_lt.
    eapply Qle_lt_trans; [|exact Hin']. by eapply chronological_head.
Qed.

Lemma C_prefix (words : list Word) :
  chronological words = true →
  C words = take (length (C words)) (normalize <$> words).
Proof.
  intros Hch. unfold C. rewrite length_fmap, <- fmap_take. f_equal.
  by apply curr_head_prefix.
Qed.

(** ** Unfolding the merge *)

Lemma new_words_ok (self : TranscriptionManager) (words : list Word) (k : nat) :
  trim_index self words = Ok k → new_words self words = Ok (drop k words).
Proof. unfold new_words. by intros ->. Qed.

Lemma update_transcript_ok (self : TranscriptionManager) (words : list Word)
    (k : nat) :
  words ≠ [] → trim_index self words = Ok k →
  update_transcript self words
  = Ok (mkTranscriptionManager
          (match last (drop k words) with
           | Some w => end_ w
           | None => last_word_end self
           end)
          (chunk_number self) words,
        printed (drop k words)).
Proof.
  intros Hne Hk. unfold update_transcript.
  destruct words as [|w0 ws]; [done|].
  rewrite (new_words_ok _ _ k Hk). simpl.
  destruct (drop k (w0 :: ws)) as [|w1 rest] eqn:Hdrop; [done|].
  destruct (last (w1 :: rest)) eqn:Hlast; [done|]. by apply last_None in Hlast.
Qed.

Lemma update_transcript_printed (self : TranscriptionManager)
    (words : list Word) (k : nat) :
  trim_index self words = Ok k →
  ∃ self', update_transcript self words = Ok (self', printed (drop k words)).
Proof.
  intros Hk. destruct words as [|w ws]; [rewrite drop_nil; by eexists|].
  eexists. by apply update_transcript_ok.
Qed.

Lemma update_transcript_total (self : TranscriptionManager) (words : list Word) :
  ∃ self' out, update_transcript self words = Ok (self', out).
Proof.
  destruct (trim_index_total self words) as [k Hk].
  destruct (update_transcript_printed self words k Hk) as [self' Hup].
  by exists self', (printed (drop k words)).
Qed.

Lemma fragment_written (w : Word) (ws : list Word) :
  fragment (w :: ws) = written_words (w :: ws).
Proof.
  unfold fragment. revert w. induction ws as [|w' ws IH]; intros w.
  - cbn [map Text.join written_words foldr].
    by rewrite TextFacts.append_nil_r.
  - cbn [map Text.join]. cbn [map] in IH.
    change (written_words (w :: w' :: ws))
      with (" " +:+ Text.strip (word w) +:+ written_words (w' :: ws)).
    by rewrite <- IH.
Qed.

(** The text written is the new words one after the other. *)
Lemma printed_written (ws : list Word) : printed ws = written_words ws.
Proof. destruct ws as [|w ws]; [done|]. apply fragment_written. Qed.

Lemma longest_match_first_chunk (words : list Word) :
  longest_match [] words = difflib.mkMatch 0 0 0.
Proof. reflexivity. Qed.

(** ** Properties of the merge *)

Lemma in_prev_tail_within (prev_words : list Word) (w : Word) :
  in_prev_tail prev_words w ↔ within_tail prev_words w.
Proof.
  unfold in_prev_tail, within_tail, Qgtb.
  destruct (last prev_words) as [l|]; [|done].
  rewrite Is_true_true, Qltb_lt. split; intros H; lra.
Qed.

Lemma in_curr_head_within (w : Word) : in_curr_head w ↔ within_head w.
Proof.
  unfold in_curr_head, within_head.
  rewrite Is_true_true, Qltb_lt. split; intros H; lra.
Qed.

(** C4. The previous-chunk candidates are exactly the words of
    [prev_words] whose end time lies within [OVERLAP_SEC] seconds of the
    last word's end time, and the current-chunk candidates exactly the
    words of [words] starting less than [OVERLAP_SEC] seconds into the
    chunk; both keep the list order, each paired with its normalized text. *)
Theorem overlap_candidates_selected (prev_words words : list Word) :
  prev_overlap prev_words
  = Ok ((λ w, (normalize w, end_ w)) <$> filter (within_tail prev_words) prev_words)
  ∧ curr_overlap words
  = Ok ((λ w, (normalize w, start w)) <$> filter within_head words).
Proof.
  rewrite prev_overlap_ok, curr_overlap_ok. split; do 2 f_equal.
  - apply filter_ext_elem. intros w _. apply in_prev_tail_within.
  - apply filter_ext_elem. intros w _. apply in_curr_head_within.
Qed.

(** C1, amended. For a non-empty chronological chunk whose candidate list
    [C] has fewer than 200 tokens, the matcher returns the longest
    contiguous common run of [P] and [C] (leftmost among the longest); a run
    of at most two tokens gives [trim_index = 0] and the whole chunk is
    emitted; a longer run ending at position [k] of [C] gives
    [trim_index = k] and exactly [words[k:]] is emitted. *)
Theorem overlap_trim_small_candidates (self : TranscriptionManager)
    (words : list Word) :
  words ≠ [] → chronological words = true → length (C words) < 200 →
  overlap_trim_spec self words.
Proof.
  intros Hne Hch Hsmall. exists (longest_match (prev_words self) words).
  pose proof (trim_index_ok self words) as Hk. simpl in Hk.
  split; [by apply find_longest_match_longest|].
  split; [by apply C_prefix|].
  split; intros Hsize.
  - rewrite (proj2 (Nat.ltb_ge _ _)) in Hk by lia.
    split; [done|]. split; [by apply (new_words_ok _ _ 0)|].
    eexists. by apply (update_transcript_ok _ _ 0).
  - rewrite (proj2 (Nat.ltb_lt _ _)) in Hk by lia.
    split; [done|]. split; [by apply new_words_ok|].
    eexists. by apply update_transcript_ok.
Qed.

(** C3, amended. On a first chunk (no previous words) every non-empty
    chunk is emitted whole and in order: [trim_index] is 0, the new words
    are the chunk itself, and the text written is, for each word of the
    chunk in order, its text with the whitespace at its two ends removed,
    the words separated by single spaces after a leading space. *)
Theorem first_chunk_emitted_whole (self : TranscriptionManager)
    (words : list Word) :
  prev_words self = [] → words ≠ [] →
  trim_index self words = Ok 0
  ∧ new_words self words = Ok words
  ∧ ∃ w, last words = Some w
      ∧ update_transcript self words
        = Ok (mkTranscriptionManager (end_ w) (chunk_number self) words,
              " " +:+ Text.join " " ((λ w, Text.strip (word w)) <$> words))
      ∧ " " +:+ Text.join " " ((λ w, Text.strip (word w)) <$> words)
        = written_words words.
Proof.
  intros Hprev Hne.
  assert (trim_index self words = Ok 0) as Hk.
  { by rewrite trim_index_ok, Hprev, longest_match_first_chunk. }
  split; [done|]. split; [by apply (new_words_ok _ _ 0)|].
  destruct (last words) as [w|] eqn:Hlast; [|by apply last_None in Hlast].
  exists w. split; [done|]. split.
  - rewrite (update_transcript_ok _ _ 0), drop_0, Hlast by done.
    by destruct words.
  - rewrite <- (printed_written words). by destruct words.
Qed.

(** C2, amended. After a non-empty chunk [prev_words] is the whole chunk,
    also when words were trimmed; after an empty chunk nothing is written
    and [prev_words] is what it was. *)
Theorem prev_words_after_update (self : TranscriptionManager)
    (words : list Word) :
  ∃ self' out,
    update_transcript self words = Ok (self', out)
    ∧ prev_words self' = match words with [] => prev_words self | _ => words end
    ∧ match words with [] => out = EmptyString | _ => True end.
Proof.
  destruct words as [|w ws]; [by eexists _, _|].
  destruct (trim_index_total self (w :: ws)) as [k Hk].
  eexists _, _. split; [by apply update_transcript_ok|]. done.
Qed.

(** C9. An empty chunk returns at once: nothing is written and the state
    ([prev_words], [last_word_end] and the rest) is untouched. *)
Theorem empty_chunk_changes_nothing (self : TranscriptionManager) :
  ∃ self' out,
    update_transcript self [] = Ok (self', out)
    ∧ out = EmptyString
    ∧ prev_words self' = prev_words self
    ∧ last_word_end self' = last_word_end self
    ∧ self' = self.
Proof. by eexists _, _. Qed.

(** C10. With no previous words the comprehension of line 164 has nothing
    to iterate over, so its condition, which reads [prev_words[-1]] and
    would raise [IndexError] on the empty list, is never evaluated: the
    candidate list is empty whatever the condition, and the update returns
    normally for every chunk. *)
Theorem first_chunk_never_raises (self : TranscriptionManager)
    (words : list Word) :
  prev_words self = [] →
  getitem_last (prev_words self) = Raise IndexError
  ∧ (∀ c, comprehension (λ w, (normalize w, end_ w)) c (prev_words self) = Ok [])
  ∧ prev_overlap (prev_words self) = Ok []
  ∧ ∃ self' out, update_transcript self words = Ok (self', out).
Proof.
  intros ->. split_and!; try done. apply update_transcript_total.
Qed.

(** C5, amended. Lowercasing is used for the comparison only; the text
    written for an emitted word is [w.word.strip()]: the transcriber's text
    with the whitespace at its two ends removed and nothing else changed. *)
Theorem emitted_text_is_stripped_original (self : TranscriptionManager)
    (words : list Word) :
  ∃ k self',
    trim_index self words = Ok k
    ∧ update_transcript self words
      = Ok (self',
            match drop k words with
            | [] => EmptyString
            | nw => " " +:+ Text.join " " ((λ w, Text.strip (word w)) <$> nw)
            end)
    ∧ ∀ w, w ∈ drop k words →
        ∃ l r, word w = l +:+ Text.strip (word w) +:+ r
               ∧ Text.all_space l = true ∧ Text.all_space r = true.
Proof.
  destruct (trim_index_total self words) as [k Hk].
  destruct (update_transcript_printed self words k Hk) as [self' Hup].
  exists k, self'. split; [done|]. split.
  - rewrite Hup. unfold printed. by destruct (drop k words).
  - intros w _. apply TextFacts.strip_split.
Qed.

(** ** The processing loop: failed transcriptions *)

Lemma process_step_failed (service : nat → bytes → result Response)
    (p : Pipeline) (audio_data : bytes) :
  (∃ e, service (calls p) audio_data = Raise e)
  ∨ service (calls p) audio_data = Ok (mkResponse None) →
  ∃ log,
    process_step service p audio_data
    = mkPipeline
        (mkTranscriptionManager (last_word_end (manager p))
           (chunk_number (manager p) + 1) (prev_words (manager p)))
        (S (calls p)) (console p +:+ log)
    ∧ (log = EmptyString
       ∨ ∃ e, log = "Error transcribing chunk: " +:+ exn_message e +:+ newline).
Proof.
  unfold process_step, transcribe_chunk. intros [[e ->] | ->].
  - eexists. split; [done|]. right. by exists e.
  - eexists. split; [done|]. by left.
Qed.

(** C6. When the transcription of a chunk fails (the call raises, or the
    response carries no words), the chunk adds no transcript text (at most
    the error line is written), [prev_words] and [last_word_end] are
    carried over, the service was called once for the chunk, and the loop
    goes on with the chunks still queued. *)
Theorem failed_transcription_is_skipped
    (service : nat → bytes → result Response) (p : Pipeline)
    (audio_data : bytes) (queue : list bytes) :
  (∃ e, service (calls p) audio_data = Raise e)
  ∨ service (calls p) audio_data = Ok (mkResponse None) →
  let p' := process_step service p audio_data in
  prev_words (manager p') = prev_words (manager p)
  ∧ last_word_end (manager p') = last_word_end (manager p)
  ∧ calls p' = S (calls p)
  ∧ (console p' = console p
     ∨ ∃ e, console p'
            = console p +:+ "Error transcribing chunk: " +:+ exn_message e +:+ newline)
  ∧ process_loop service (audio_data :: queue) p = process_loop service queue p'.
Proof.
  intros Hfail p'. subst p'.
  destruct (process_step_failed service p audio_data Hfail) as (log & Hstep & Hlog).
  assert (process_loop service (audio_data :: queue) p
          = process_loop service queue (process_step service p audio_data))
    as -> by done.
  rewrite Hstep. simpl. split_and!; try done.
  destruct Hlog as [->|[e ->]]; [left; apply TextFacts.append_nil_r|].
  right. by exists e.
Qed.

(** ** The recorder: chunk sizes *)

Lemma length_concat_full (blocks : list bytes) :
  Forall full_read blocks →
  Z.of_nat (length (concat blocks))
  = (Z.of_nat (length blocks) * (CHUNK_SIZE * SAMPLE_WIDTH * CHANNELS))%Z.
Proof.
  induction 1 as [|data blocks Hdata _ IH]; [done|].
  simpl. rewrite length_app, Nat2Z.inj_add, IH, Hdata. lia.
Qed.

Lemma recorder_inv_start : recorder_inv AudioRecorder.start.
Proof. by split. Qed.

Lemma recorder_inv_step (self : AudioRecorder.t) (data : bytes) :
  recorder_inv self → full_read data →
  recorder_inv (AudioRecorder.record_step self data).
Proof.
  intros [Hth Htot Hlt Hblocks Hqueue] Hdata. unfold AudioRecorder.record_step.
  assert (Forall full_read (AudioRecorder.current_chunk self ++ [data])) as Hall.
  { apply Forall_app. split; [done|]. by apply Forall_singleton. }
  rewrite Hth, Htot in *. unfold RATE, CHUNK_LEN_SEC, CHUNK_SIZE in *.
  case_match eqn:Hcmp; split; simpl; try done.
  - apply Forall_app. split; [done|]. apply Forall_singleton.
    rewrite (length_concat_full _ Hall), length_app. simpl.
    apply Z.leb_le in Hcmp. unfold chunk_samples, CHUNK_SIZE, RATE, CHUNK_LEN_SEC,
      SAMPLE_WIDTH, CHANNELS. 
    change ((16000 * 4 + 1024 - 1) / 1024)%Z with 63%Z. lia.
  - rewrite length_app. simpl. unfold CHUNK_SIZE. lia.
  - apply Z.leb_gt in Hcmp. lia.
Qed.

Lemma recorder_inv_loop (reads : list (result bytes)) (self : AudioRecorder.t) :
  (∀ data, Ok data ∈ reads → full_read data) →
  recorder_inv self → recorder_inv (AudioRecorder.record_loop reads self).1.
Proof.
  revert self. induction reads as [|[data|e] reads IH]; intros self Hreads Hinv;
    simpl; try done.
  apply IH.
  - intros d Hd. apply Hreads. by right.
  - apply recorder_inv_step; [done|]. apply Hreads. by left.
Qed.

(** ** Concrete runs *)

Example fox_overlap_trimmed :
  update_transcript (mkTranscriptionManager 3.8 1 fox_prev) fox_chunk
  = Ok (mkTranscriptionManager 1.2 1 fox_chunk, " Jumps over").
Proof. vm_compute. reflexivity. Qed.

Lemma overlap_trim_small_candidates_witness :
  fox_chunk ≠ [] ∧ chronological fox_chunk = true ∧ length (C fox_chunk) < 200
  ∧ overlap_trim_spec (mkTranscriptionManager 3.8 1 fox_prev) fox_chunk.
Proof.
  split_and!; [done | reflexivity | vm_compute; lia |].
  apply overlap_trim_small_candidates; [done | reflexivity | vm_compute; lia].
Defined.

(** C1 as stated fails once [C] reaches 200 tokens: [P] and [C] share the
    run [a a a], longer than two tokens, yet the matcher, having dropped the
    popular [a] from its index, reports no match and nothing is trimmed. *)
Lemma overlap_trim_fails_with_popular_words :
  popular_chunk ≠ []
  ∧ chronological popular_prev = true ∧ chronological popular_chunk = true
  ∧ common_run (P popular_prev) (C popular_chunk) 1 1 3
  ∧ trim_index (mkTranscriptionManager 0.8 1 popular_prev) popular_chunk = Ok 0
  ∧ ¬ overlap_trim_spec (mkTranscriptionManager 0.8 1 popular_prev) popular_chunk.
Proof.
  assert (common_run (P popular_prev) (C popular_chunk) 1 1 3) as Hrun.
  { split_and!; [vm_compute; lia | vm_compute; lia | vm_compute; reflexivity]. }
  assert (trim_index (mkTranscriptionManager 0.8 1 popular_prev) popular_chunk
          = Ok 0) as Htrim by (vm_compute; reflexivity).
  split_and!; [done | reflexivity | vm_compute; reflexivity | done | done |].
  intros (m & (_ & Hmax & _) & _ & _ & Hlong).
  specialize (Hmax _ _ _ Hrun).
  destruct Hlong as (Hk & _); [lia|].
  rewrite Htrim in Hk. injection Hk as Hk. lia.
Qed.

Lemma first_chunk_emitted_whole_witness :
  prev_words init_manager = [] ∧ padded_chunk ≠ []
  ∧ update_transcript init_manager padded_chunk
    = Ok (mkTranscriptionManager 0.9 0 padded_chunk, " Hello world").
Proof.
  split_and!; [done..|].
  destruct (first_chunk_emitted_whole init_manager padded_chunk)
    as (_ & _ & w & Hlast & Hup & _); [done..|].
  injection Hlast as <-. exact Hup.
Defined.

(** C3 as stated fails on a first chunk whose words carry whitespace: the
    chunk is written with every word stripped, not verbatim. *)
Lemma first_chunk_is_not_verbatim :
  prev_words init_manager = [] ∧ padded_chunk ≠ []
  ∧ ∃ self' out,
      update_transcript init_manager padded_chunk = Ok (self', out)
      ∧ out = " Hello world"
      ∧ out ≠ " " +:+ Text.join " " (word <$> padded_chunk).
Proof.
  split_and!; [done..|]. eexists _, _.
  split_and!; [vm_compute; reflexivity | done..].
Qed.

Lemma first_chunk_never_raises_witness :
  prev_words init_manager = []
  ∧ ∃ self' out, update_transcript init_manager hello_chunk = Ok (self', out).
Proof.
  split; [done|]. by apply (first_chunk_never_raises init_manager hello_chunk).
Defined.

(** C2 as stated fails on an empty chunk: [prev_words] is not overwritten
    with the empty list. *)
Lemma empty_chunk_keeps_prev_words :
  ∃ self' out,
    update_transcript (mkTranscriptionManager 1.0 1 hello_chunk) []
    = Ok (self', out)
    ∧ prev_words self' = hello_chunk ∧ prev_words self' ≠ [].
Proof. by eexists _, _. Qed.

(** C5 as stated fails on a word with surrounding whitespace: the text
    written is the stripped word, not the transcriber's text. *)
Lemma emitted_text_differs_from_original :
  ∃ self' out,
    update_transcript init_manager [mkWord "Hello " 0.0 0.5] = Ok (self', out)
    ∧ new_words init_manager [mkWord "Hello " 0.0 0.5]
      = Ok [mkWord "Hello " 0.0 0.5]
    ∧ out = " Hello"
    ∧ out ≠ " " +:+ Text.join " " (word <$> [mkWord "Hello " 0.0 0.5]).
Proof. eexists _, _. split_and!; [vm_compute; reflexivity | done..]. Qed.

Lemma failed_transcription_is_skipped_witness :
  failing_service (calls after_hello) silence
  = Raise (OtherError "Connection error.")
  ∧ prev_words (manager (process_step failing_service after_hello silence))
    = hello_chunk
  ∧ calls (process_step failing_service after_hello silence) = 2
  ∧ process_loop failing_service [silence; silence] after_hello
    = process_loop failing_service [silence]
        (process_step failing_service after_hello silence).
Proof.
  destruct (failed_transcription_is_skipped failing_service after_hello
              silence [silence])
    as (Hprev & _ & Hcalls & _ & Hloop); [left; by eexists|].
  done.
Defined.

(** C7 as stated fails on the first chunk: 63 reads of 1024 samples are
    queued as one chunk of 64512 samples, not [CHUNK_LEN_SEC * RATE] = 64000. *)
Lemma first_chunk_exceeds_chunk_duration :
  (λ c, Z.of_nat (length c)) <$>
    AudioRecorder.chunk_queue
      (AudioRecorder.record_loop (replicate 63 (Ok silence)) AudioRecorder.start).1
  = [(64512 * SAMPLE_WIDTH)%Z]
  ∧ (64512 * SAMPLE_WIDTH)%Z ≠ (CHUNK_LEN_SEC * RATE * SAMPLE_WIDTH)%Z.
Proof. split; [vm_compute; reflexivity | vm_compute; discriminate]. Qed.


(** ** The matcher with the popularity heuristic active

    Whatever [autojunk] purges from [b2j], what [find_longest_match] returns
    is a common run of the two sequences. *)

Lemma b2j_positions (xs ys : list string) (autojunk : bool) (x : string)
    (idxs : list nat) (j : nat) :
  difflib.b2j (difflib.new xs ys autojunk) !! x = Some idxs →
  j ∈ idxs → ys !! j = Some x.
Proof.
  unfold difflib.new, difflib.chain_b. simpl.
  intros [Hidx _]%map_lookup_filter_Some Hj.
  pose proof (index_elements_lookup ys x) as Hocc. rewrite Hidx in Hocc.
  simpl in Hocc. subst idxs. unfold occurrences in Hj.
  by apply list_elem_of_filter in Hj as [Hj _].
Qed.

Lemma common_run_origin (xs ys : list string) : common_run xs ys 0 0 0.
Proof. split_and!; simpl; lia || done. Qed.

Section matcher_sound.
Context (xs ys : list string).

Local Abbreviation cell := (run_ending xs ys).

Lemma scan_row_sound (blo bhi i : nat) (x : string) (j2len : gmap nat nat) :
  xs !! i = Some x →
  (∀ j, default 0 (j2len !! j) ≤ match i with O => 0 | S i' => cell i' j end) →
  ∀ idxs newj2len best,
    (∀ j, j ∈ idxs → ys !! j = Some x) →
    (∀ j, default 0 (newj2len !! j) ≤ cell i j) →
    common_run xs ys (difflib.a best) (difflib.b best) (difflib.size best) →
    (∀ j, default 0
            ((difflib.scan_row blo bhi i j2len idxs newj2len best).1 !! j)
          ≤ cell i j)
    ∧ common_run xs ys
        (difflib.a (difflib.scan_row blo bhi i j2len idxs newj2len best).2)
        (difflib.b (difflib.scan_row blo bhi i j2len idxs newj2len best).2)
        (difflib.size (difflib.scan_row blo bhi i j2len idxs newj2len best).2).
Proof.
  intros Hx Htab. induction idxs as [|j idxs IH];
    intros newj best Hidxs Hnew Hbest; [done|].
  assert (∀ j', j' ∈ idxs → ys !! j' = Some x) as Hrest
    by (intros j' Hj'; apply Hidxs; by right).
  cbn [difflib.scan_row].
  destruct (j <? blo); [by apply IH|].
  destruct (bhi <=? j); [done|].
  assert (difflib.j2lenget j2len j + 1 ≤ cell i j) as Hk.
  { rewrite (run_ending_same _ _ _ _ x) by (done || apply Hidxs; by left).
    destruct j as [|j]; simpl; [lia|].
    specialize (Htab j). destruct i; simpl in *; lia. }
  apply IH; [done| |].
  - intros j'. destruct (decide (j' = j)) as [->|Hne].
    + by rewrite lookup_insert_eq.
    + by rewrite lookup_insert_ne.
  - destruct (difflib.size best <? _); [|done]. simpl.
    apply run_ending_common_run; [lia|done].
Qed.

Lemma scan_rows_sound (autojunk : bool) (blo bhi : nat) :
  ∀ len i j2len best,
    (∀ j, default 0 (j2len !! j) ≤ match i with O => 0 | S i' => cell i' j end) →
    common_run xs ys (difflib.a best) (difflib.b best) (difflib.size best) →
    let m := difflib.scan_rows (difflib.new xs ys autojunk) blo bhi (seq i len)
               j2len best in
    common_run xs ys (difflib.a m) (difflib.b m) (difflib.size m).
Proof.
  induction len as [|len IH]; intros i j2len best Htab Hbest; [done|].
  rewrite <- cons_seq. cbn [difflib.scan_rows]. rewrite seq_a_new.
  destruct (xs !! i) as [x|] eqn:Hx.
  - destruct (scan_row_sound blo bhi i x j2len Hx Htab
                (default [] (difflib.b2j (difflib.new xs ys autojunk) !! x))
                ∅ best) as [Htab' Hbest']; [| |done|].
    { destruct (difflib.b2j _ !! x) as [idxs|] eqn:Hidx; simpl.
      - intros j Hj. by eapply b2j_positions.
      - by intros j ?%elem_of_nil. }
    { intros j. rewrite lookup_empty. simpl. lia. }
    destruct (difflib.scan_row _ _ _ _ _ _ _) as [newj best'].
    by apply IH.
  - simpl. apply IH; [|done]. intros j. rewrite lookup_empty. simpl. lia.
Qed.

Lemma extend_left_sound (autojunk junk : bool) (alo blo : nat) :
  ∀ i j n,
    common_run xs ys i j n →
    let m := difflib.extend_left (difflib.new xs ys autojunk) junk alo blo i j n in
    common_run xs ys (difflib.a m) (difflib.b m) (difflib.size m).
Proof.
  induction i as [|i IH]; intros j n Hrun; [done|].
  destruct j as [|j]; [done|]. cbn [difflib.extend_left].
  destruct (_ && _) eqn:Hcond; [|done].
  apply andb_true_iff in Hcond as [_ Hsame].
  apply same_at_new in Hsame as (x & Hx & Hy).
  apply IH. by eapply common_run_extend_left.
Qed.

Lemma extend_right_loop_sound (autojunk junk : bool) (bhi i j : nat) :
  ∀ gap n,
    common_run xs ys i j n →
    let m := difflib.extend_right_loop (difflib.new xs ys autojunk) junk bhi
               i j n gap in
    common_run xs ys (difflib.a m) (difflib.b m) (difflib.size m).
Proof.
  induction gap as [|gap IH]; intros n Hrun; [done|].
  cbn [difflib.extend_right_loop].
  destruct (_ && _) eqn:Hcond; [|done].
  apply andb_true_iff in Hcond as [_ Hsame].
  apply same_at_new in Hsame as (x & Hx & Hy).
  apply IH. by eapply common_run_extend_right.
Qed.

Lemma find_longest_match_sound (autojunk : bool) :
  let m := difflib.find_longest_match (difflib.new xs ys autojunk)
             0 (length xs) 0 (length ys) in
  common_run xs ys (difflib.a m) (difflib.b m) (difflib.size m).
Proof.
  unfold difflib.find_longest_match, difflib.extend_right.
  apply extend_right_loop_sound, extend_left_sound,
    extend_right_loop_sound, extend_left_sound, scan_rows_sound.
  - intros j. rewrite lookup_empty. simpl. lia.
  - apply common_run_origin.
Qed.

End matcher_sound.

(** ** Further properties of the merge *)

(** X1. For any two token sequences, with or without the popularity
    heuristic, the match returned over the whole of both sequences is a
    genuine common run: it lies within both sequences and the two slices
    are equal. *)
Theorem matcher_returns_common_run (xs ys : list string) (autojunk : bool) :
  let m := difflib.find_longest_match (difflib.new xs ys autojunk)
             0 (length xs) 0 (length ys) in
  difflib.a m + difflib.size m ≤ length xs
  ∧ difflib.b m + difflib.size m ≤ length ys
  ∧ take (difflib.size m) (drop (difflib.a m) xs)
    = take (difflib.size m) (drop (difflib.b m) ys).
Proof. apply find_longest_match_sound. Qed.

Lemma longest_match_sound (prev words : list Word) :
  common_run (P prev) (C words)
    (difflib.a (longest_match prev words)) (difflib.b (longest_match prev words))
    (difflib.size (longest_match prev words)).
Proof. apply find_longest_match_sound. Qed.

Lemma C_length (words : list Word) : length (C words) ≤ length words.
Proof. unfold C. rewrite length_fmap. apply length_filter. Qed.

Lemma trim_index_le (self : TranscriptionManager) (words : list Word) (k : nat) :
  trim_index self words = Ok k → k ≤ length words.
Proof.
  rewrite trim_index_ok. cbv zeta. intros [= <-].
  pose proof (longest_match_sound (prev_words self) words) as (_ & Hb & _).
  pose proof (C_length words). case_match; lia.
Qed.

(** C8. Whatever the state and the chunk, what is emitted is the suffix
    [words[trim_index:]] of the chunk, with [trim_index] within the chunk:
    the [i]-th emitted word is the word at position [trim_index + i], and
    the text written is those words one after the other in that order,
    each preceded by a space. *)
Theorem emitted_words_are_suffix (self : TranscriptionManager)
    (words : list Word) :
  ∃ k self',
    trim_index self words = Ok k
    ∧ k ≤ length words
    ∧ new_words self words = Ok (drop k words)
    ∧ update_transcript self words = Ok (self', written_words (drop k words))
    ∧ (∀ i, drop k words !! i = words !! (k + i))
    ∧ drop k words `suffix_of` words
    ∧ drop k words `sublist_of` words.
Proof.
  destruct (trim_index_total self words) as [k Hk].
  destruct (update_transcript_printed self words k Hk) as [self' Hup].
  rewrite printed_written in Hup.
  exists k, self'. split; [done|]. split; [by eapply trim_index_le|].
  split; [by apply new_words_ok|]. split; [done|].
  split; [intros i; apply lookup_drop|].
  split; [apply suffix_drop | apply sublist_drop].
Qed.

Lemma emitted_words_are_suffix_witness :
  ∃ k self',
    trim_index (mkTranscriptionManager 3.8 1 fox_prev) fox_chunk = Ok k
    ∧ k = 3
    ∧ update_transcript (mkTranscriptionManager 3.8 1 fox_prev) fox_chunk
      = Ok (self', " Jumps over").
Proof.
  destruct (emitted_words_are_suffix (mkTranscriptionManager 3.8 1 fox_prev)
              fox_chunk) as (k & self' & Hk & _ & _ & Hup & _).
  assert (trim_index (mkTranscriptionManager 3.8 1 fox_prev) fox_chunk = Ok 3)
    as Hthree by (vm_compute; reflexivity).
  assert (k = 3) as -> by congruence.
  exists 3, self'. split; [exact Hk|]. split; [reflexivity|]. exact Hup.
Defined.

(** X2. The merge never trims without evidence: for every state and chunk,
    [trim_index] is either 0 or the end, within the candidate list [C], of
    a run of at least three tokens that also occurs in [P]; it never
    exceeds the length of [C], hence of the chunk. *)
Theorem trim_requires_three_token_overlap (self : TranscriptionManager)
    (words : list Word) :
  ∃ k,
    trim_index self words = Ok k
    ∧ k ≤ length (C words) ∧ length (C words) ≤ length words
    ∧ (k = 0
       ∨ ∃ i n, 2 < n ∧ n ≤ k
                ∧ common_run (P (prev_words self)) (C words) i (k - n) n).
Proof.
  pose proof (longest_match_sound (prev_words self) words) as Hrun.
  pose proof Hrun as (_ & Hb & _).
  eexists. split; [apply trim_index_ok|]. cbv zeta.
  split; [case_match; lia|]. split; [apply C_length|].
  destruct (2 <? _) eqn:Hsize; [right|by left].
  apply Nat.ltb_lt in Hsize.
  exists (difflib.a (longest_match (prev_words self) words)),
    (difflib.size (longest_match (prev_words self) words)).
  split; [done|]. split; [lia|].
  by replace (_ + _ - _) with (difflib.b (longest_match (prev_words self) words))
    by lia.
Qed.

(** X3. When the previous tail and the chunk's head have no token in
    common, nothing is trimmed and the whole chunk is new, however long the
    candidate lists are. *)
Theorem disjoint_candidates_emit_whole_chunk (self : TranscriptionManager)
    (words : list Word) :
  (∀ x, x ∈ P (prev_words self) → x ∉ C words) →
  trim_index self words = Ok 0 ∧ new_words self words = Ok words.
Proof.
  intros Hdisj.
  assert (trim_index self words = Ok 0) as Hk.
  { rewrite trim_index_ok. cbv zeta.
    destruct (2 <? _) eqn:Hsize; [|done]. apply Nat.ltb_lt in Hsize.
    destruct (common_run_lookup _ _ _ _ _ 0
                (longest_match_sound (prev_words self) words))
      as (x & Hx & Hy); [lia|].
    destruct (Hdisj x); by eapply list_elem_of_lookup_2. }
  split; [done|]. by apply (new_words_ok _ _ 0).
Qed.

Lemma disjoint_candidates_emit_whole_chunk_witness :
  (∀ x, x ∈ P fox_prev → x ∉ C hello_chunk)
  ∧ trim_index (mkTranscriptionManager 3.8 1 fox_prev) hello_chunk = Ok 0
  ∧ new_words (mkTranscriptionManager 3.8 1 fox_prev) hello_chunk
    = Ok hello_chunk.
Proof.
  assert (∀ x, x ∈ P fox_prev → x ∉ C hello_chunk) as Hdisj.
  { apply Forall_forall.
    apply (bool_decide_unpack (Forall (λ x, x ∉ C hello_chunk) (P fox_prev))).
    vm_compute. exact I. }
  split; [exact Hdisj|].
  apply (disjoint_candidates_emit_whole_chunk
           (mkTranscriptionManager 3.8 1 fox_prev) hello_chunk Hdisj).
Defined.

(** X4. Duplicate suppression: when the chunk's candidate list repeats the
    previous tail's candidate list exactly, with more than two and fewer
    than 200 tokens, all of the repeated words are trimmed; if the chunk
    holds nothing else, nothing is written, [last_word_end] keeps its value
    and [prev_words] becomes the chunk. *)
Theorem repeated_tail_is_dropped (self : TranscriptionManager)
    (words : list Word) :
  C words = P (prev_words self) →
  2 < length (C words) → length (C words) < 200 →
  trim_index self words = Ok (length (C words))
  ∧ (length (C words) = length words →
     update_transcript self words
     = Ok (mkTranscriptionManager (last_word_end self) (chunk_number self) words,
           EmptyString)).
Proof.
  intros Heq Hlong Hsmall.
  pose proof (find_longest_match_longest (P (prev_words self)) (C words) Hsmall)
    as ((_ & Hb & _) & Hmax & _).
  fold (longest_match (prev_words self) words) in Hb, Hmax.
  assert (length (C words) ≤ difflib.size (longest_match (prev_words self) words))
    as Hsize.
  { apply (Hmax 0 0). rewrite <- Heq. split_and!; [lia..|done]. }
  assert (trim_index self words = Ok (length (C words))) as Hk.
  { rewrite trim_index_ok. cbv zeta.
    rewrite (proj2 (Nat.ltb_lt _ _)) by lia. f_equal. lia. }
  split; [done|]. intros Hall.
  assert (words ≠ []) as Hne by (intros ->; unfold C in Hlong; simpl in Hlong; lia).
  rewrite (update_transcript_ok _ _ _ Hne Hk).
  by rewrite Hall, drop_all.
Qed.

Lemma repeated_tail_is_dropped_witness :
  C repeat_chunk = P repeat_prev
  ∧ 2 < length (C repeat_chunk) ∧ length (C repeat_chunk) < 200
  ∧ trim_index (mkTranscriptionManager 3.8 1 repeat_prev) repeat_chunk = Ok 3.
Proof.
  split_and!; [vm_compute; reflexivity | vm_compute; lia | vm_compute; lia |].
  apply (repeated_tail_is_dropped (mkTranscriptionManager 3.8 1 repeat_prev)
           repeat_chunk);
    [vm_compute; reflexivity | vm_compute; lia | vm_compute; lia].
Defined.

(** X5. The update returns normally for every state and every chunk: the
    condition of line 165 reads [prev_words[-1]] only while iterating over
    a non-empty [prev_words], so neither comprehension raises. *)
Theorem update_never_raises (self : TranscriptionManager) (words : list Word) :
  (∃ prev, prev_overlap (prev_words self) = Ok prev)
  ∧ (∃ curr, curr_overlap words = Ok curr)
  ∧ ∃ self' out, update_transcript self words = Ok (self', out).
Proof.
  split; [eexists; apply prev_overlap_ok|].
  split; [eexists; apply curr_overlap_ok|]. apply update_transcript_total.
Qed.

Lemma last_drop_lt {A : Type} (l : list A) (k : nat) :
  k < length l → last (drop k l) = last l.
Proof.
  intros Hk. rewrite !last_lookup, lookup_drop, length_drop. f_equal. lia.
Qed.

(** X6. For a chunk whose last word is [w]: if some word is new
    ([trim_index] below the chunk's length), text is written and
    [last_word_end] becomes the end time of [w]; if every word is trimmed,
    nothing is written and [last_word_end] keeps its value.  Either way
    [prev_words] becomes the chunk and [chunk_number] is untouched. *)
Theorem last_word_end_follows_emission (self : TranscriptionManager)
    (words : list Word) (w : Word) :
  last words = Some w →
  ∃ k self' out,
    trim_index self words = Ok k
    ∧ update_transcript self words = Ok (self', out)
    ∧ prev_words self' = words ∧ chunk_number self' = chunk_number self
    ∧ (k < length words →
       last_word_end self' = end_ w ∧ out = fragment (drop k words))
    ∧ (length words ≤ k →
       last_word_end self' = last_word_end self ∧ out = EmptyString).
Proof.
  intros Hlast. destruct (trim_index_total self words) as [k Hk].
  assert (words ≠ []) as Hne by (by intros ->).
  exists k. eexists. eexists. split; [exact Hk|].
  split; [exact (update_transcript_ok self words k Hne Hk)|].
  split; [reflexivity|]. split; [reflexivity|].
  cbn [last_word_end]. split.
  - intros Hlt. rewrite last_drop_lt, Hlast by exact Hlt. split; [reflexivity|].
    unfold printed. destruct (drop k words) eqn:Hdrop; [|reflexivity].
    apply (f_equal length) in Hdrop. rewrite length_drop in Hdrop.
    cbn [length] in Hdrop. lia.
  - intros Hge. rewrite drop_ge by exact Hge. split; reflexivity.
Qed.

Lemma last_word_end_follows_emission_witness :
  last fox_chunk = Some (mkWord "over" 1.0 1.2)
  ∧ ∃ k self' out,
      trim_index (mkTranscriptionManager 3.8 1 fox_prev) fox_chunk = Ok k
      ∧ update_transcript (mkTranscriptionManager 3.8 1 fox_prev) fox_chunk
        = Ok (self', out)
      ∧ prev_words self' = fox_chunk.
Proof.
  split; [reflexivity|].
  destruct (last_word_end_follows_emission
              (mkTranscriptionManager 3.8 1 fox_prev) fox_chunk
              (mkWord "over" 1.0 1.2) eq_refl)
    as (k & self' & out & Hk & Hup & Hprev & _).
  exists k, self', out. split; [exact Hk|]. split; [exact Hup|exact Hprev].
Defined.

(** ** Further properties of the recorder *)

Lemma record_step_concat (self : AudioRecorder.t) (data : bytes) :
  concat (AudioRecorder.chunk_queue (AudioRecorder.record_step self data))
  ++ concat (AudioRecorder.current_chunk (AudioRecorder.record_step self data))
  = (concat (AudioRecorder.chunk_queue self)
     ++ concat (AudioRecorder.current_chunk self)) ++ data.
Proof.
  unfold AudioRecorder.record_step. case_match; simpl.
  - by rewrite !concat_app, app_nil_r, <- app_assoc; simpl;
      rewrite !app_nil_r.
  - by rewrite concat_app, app_assoc; simpl; rewrite app_nil_r.
Qed.

(** X9. The recorder neither loses, duplicates nor reorders audio: after
    any sequence of successful reads, the queued chunks followed by the
    accumulator are, byte for byte, what was there before followed by the
    data read. *)
Theorem recorder_conserves_audio (datas : list bytes) (self : AudioRecorder.t) :
  concat (AudioRecorder.chunk_queue
            (AudioRecorder.record_loop (Ok <$> datas) self).1)
  ++ concat (AudioRecorder.current_chunk
               (AudioRecorder.record_loop (Ok <$> datas) self).1)
  = (concat (AudioRecorder.chunk_queue self)
     ++ concat (AudioRecorder.current_chunk self)) ++ concat datas.
Proof.
  revert self. induction datas as [|data datas IH]; intros self.
  - by rewrite app_nil_r.
  - cbn [fmap list_fmap AudioRecorder.record_loop concat].
    by rewrite IH, record_step_concat, <- app_assoc.
Qed.

(** X10. A failing read ends the recording loop: the state is the one
    reached by the reads before it, the error is reported, and whatever the
    device would have delivered afterwards is never read. *)
Theorem recorder_stops_at_first_error (datas : list bytes) (e : exn)
    (later : list (result bytes)) (self : AudioRecorder.t) :
  AudioRecorder.record_loop ((Ok <$> datas) ++ Raise e :: later) self
  = ((AudioRecorder.record_loop (Ok <$> datas) self).1,
     "Error in recording loop: " +:+ exn_message e +:+ newline).
Proof.
  revert self. induction datas as [|data datas IH]; intros self; [done|].
  cbn [fmap list_fmap app AudioRecorder.record_loop]. apply IH.
Qed.

Lemma recorder_counts_start : recorder_counts AudioRecorder.start.
Proof. split; simpl; done || lia. Qed.

Lemma record_step_counts (self : AudioRecorder.t) (data : bytes) :
  recorder_counts self →
  recorder_counts (AudioRecorder.record_step self data)
  ∧ if decide (length (AudioRecorder.current_chunk self) = 62) then
      AudioRecorder.current_chunk (AudioRecorder.record_step self data) = []
      ∧ length (AudioRecorder.chunk_queue (AudioRecorder.record_step self data))
        = S (length (AudioRecorder.chunk_queue self))
      ∧ AudioRecorder.chunk_number (AudioRecorder.record_step self data)
        = (AudioRecorder.chunk_number self + 1)%Z
    else
      length (AudioRecorder.current_chunk (AudioRecorder.record_step self data))
      = S (length (AudioRecorder.current_chunk self))
      ∧ AudioRecorder.chunk_queue (AudioRecorder.record_step self data)
        = AudioRecorder.chunk_queue self
      ∧ AudioRecorder.chunk_number (AudioRecorder.record_step self data)
        = AudioRecorder.chunk_number self.
Proof.
  intros [Hth Htot Hlt]. unfold AudioRecorder.record_step.
  rewrite Hth, Htot. unfold RATE, CHUNK_LEN_SEC, CHUNK_SIZE in *.
  destruct (_ <=? _)%Z eqn:Hcmp;
    [apply Z.leb_le in Hcmp | apply Z.leb_gt in Hcmp].
  - rewrite decide_True by lia. split;
      [|simpl; rewrite length_app; simpl; split_and!; done || lia].
    split; simpl; unfold RATE, CHUNK_LEN_SEC, CHUNK_SIZE; done || lia.
  - rewrite decide_False by lia. simpl. rewrite length_app, Nat.add_1_r.
    split; [|done].
    split; simpl; rewrite ?length_app; simpl;
      unfold RATE, CHUNK_LEN_SEC, CHUNK_SIZE; done || lia.
Qed.

Lemma record_loop_delivered (reads : list (result bytes))
    (self : AudioRecorder.t) :
  (AudioRecorder.record_loop reads self).1
  = (AudioRecorder.record_loop (Ok <$> delivered reads) self).1.
Proof.
  revert self. induction reads as [|[data|e] reads IH]; intros self; [done| |done].
  cbn [delivered fmap list_fmap AudioRecorder.record_loop]. apply IH.
Qed.

Lemma recorder_groups_start : recorder_groups [] AudioRecorder.start.
Proof.
  split; [apply recorder_counts_start|]. exists []. by split_and!.
Qed.

Lemma recorder_groups_step (done : list bytes) (self : AudioRecorder.t)
    (data : bytes) :
  recorder_groups done self →
  recorder_groups (done ++ [data]) (AudioRecorder.record_step self data).
Proof.
  intros (Hcounts & groups & Hqueue & Hfull & ->).
  split; [by apply record_step_counts|].
  pose proof Hcounts as [Hth Htot Hlt]. unfold AudioRecorder.record_step.
  rewrite Hth, Htot. unfold RATE, CHUNK_LEN_SEC, CHUNK_SIZE in *.
  destruct (_ <=? _)%Z eqn:Hcmp;
    [apply Z.leb_le in Hcmp | apply Z.leb_gt in Hcmp];
    cbn [AudioRecorder.chunk_queue AudioRecorder.current_chunk].
  - exists (groups ++ [AudioRecorder.current_chunk self ++ [data]]).
    split_and!.
    + by rewrite Hqueue, fmap_app.
    + apply Forall_app. split; [done|]. apply Forall_singleton.
      rewrite length_app. cbn [length]. lia.
    + rewrite concat_app. cbn [concat]. by rewrite !app_nil_r, app_assoc.
  - exists groups. split_and!; [done..|]. by rewrite app_assoc.
Qed.

Lemma recorder_groups_loop (datas : list bytes) :
  ∀ done self,
    recorder_groups done self →
    recorder_groups (done ++ datas)
      (AudioRecorder.record_loop (Ok <$> datas) self).1.
Proof.
  induction datas as [|data datas IH]; intros done self Hinv.
  - by rewrite app_nil_r.
  - cbn [fmap list_fmap AudioRecorder.record_loop].
    rewrite cons_middle, app_assoc. apply IH. by apply recorder_groups_step.
Qed.

Lemma length_concat_groups {A : Type} (n : nat) (groups : list (list A)) :
  Forall (λ g, length g = n) groups →
  length (concat groups) = n * length groups.
Proof.
  induction 1 as [|g groups Hg _ IH]; cbn [concat length]; [lia|].
  rewrite length_app, IH, Hg. lia.
Qed.

Lemma group_lookup {A : Type} (n : nat) (groups : list (list A))
    (rest : list A) :
  Forall (λ g, length g = n) groups →
  ∀ i g, groups !! i = Some g →
    n * (i + 1) ≤ length (concat groups ++ rest)
    ∧ take n (drop (n * i) (concat groups ++ rest)) = g.
Proof.
  induction 1 as [|g0 groups Hg0 Hfull IH]; intros i g Hi; [done|].
  cbn [concat]. rewrite <- app_assoc. destruct i as [|i].
  - injection Hi as ->. rewrite Nat.mul_0_r, drop_0. split.
    + rewrite length_app. lia.
    + by apply take_app_length'.
  - destruct (IH i g Hi) as [Hlen Htake]. split.
    + rewrite length_app. lia.
    + replace (n * S i) with (n + n * i) by lia.
      by rewrite drop_app_add'.
Qed.

(** X11. Chunks are cut every 63 reads, whatever the reads contain:
    after [n] successful reads from a fresh recorder, [n / 63] chunks are
    queued, [chunk_number] is [n / 63], and the accumulator holds the
    [n mod 63] most recent reads with [total_samples] at
    [CHUNK_SIZE * (n mod 63)]. *)
Theorem chunk_every_63_reads (datas : list bytes) :
  let self := (AudioRecorder.record_loop (Ok <$> datas) AudioRecorder.start).1 in
  length (AudioRecorder.chunk_queue self) = length datas / 63
  ∧ AudioRecorder.chunk_number self = Z.of_nat (length datas / 63)
  ∧ length (AudioRecorder.current_chunk self) = length datas mod 63
  ∧ AudioRecorder.total_samples self
    = (CHUNK_SIZE * Z.of_nat (length datas mod 63))%Z
  ∧ AudioRecorder.current_chunk self = drop (63 * (length datas / 63)) datas.
Proof.
  assert (∀ datas self, recorder_counts self →
            let self' := (AudioRecorder.record_loop (Ok <$> datas) self).1 in
            recorder_counts self'
            ∧ length (AudioRecorder.chunk_queue self')
              = length (AudioRecorder.chunk_queue self)
                + (length (AudioRecorder.current_chunk self) + length datas) / 63
            ∧ AudioRecorder.chunk_number self'
              = (AudioRecorder.chunk_number self
                 + Z.of_nat ((length (AudioRecorder.current_chunk self)
                              + length datas) / 63))%Z
            ∧ length (AudioRecorder.current_chunk self')
              = (length (AudioRecorder.current_chunk self) + length datas) mod 63)
    as Hloop.
  { clear datas. induction datas as [|data datas IH]; intros self Hinv.
    - pose proof (counts_below _ Hinv) as Hlt.
      cbn [fmap list_fmap AudioRecorder.record_loop fst length].
      rewrite Nat.add_0_r, Nat.div_small, Nat.mod_small by done.
      split_and!; [done|lia..].
    - cbn [fmap list_fmap AudioRecorder.record_loop length].
      destruct (record_step_counts self data Hinv) as [Hinv' Hstep].
      destruct (IH _ Hinv') as (Hinv'' & Hq & Hn & Hc).
      split; [done|]. rewrite Hq, Hn, Hc. clear Hq Hn Hc IH.
      pose proof (counts_below _ Hinv) as Hlt.
      case_decide as Hfull.
      + destruct Hstep as (-> & -> & ->). rewrite Hfull. cbn [length].
        replace (62 + S (length datas)) with (0 + length datas + 1 * 63) by lia.
        rewrite Nat.div_add, Nat.Div0.mod_add by lia.
        split_and!; lia.
      + destruct Hstep as (-> & -> & ->).
        replace (S (length (AudioRecorder.current_chunk self)) + length datas)
          with (length (AudioRecorder.current_chunk self) + S (length datas))
          by lia.
        done. }
  intros self. subst self.
  destruct (Hloop datas _ recorder_counts_start) as (Hinv & Hq & Hn & Hc).
  cbn [AudioRecorder.start AudioRecorder.chunk_queue AudioRecorder.current_chunk
       AudioRecorder.chunk_number length] in Hq, Hn, Hc.
  rewrite Nat.add_0_l in Hq, Hn, Hc.
  split_and!; [done | lia | done | |].
  - rewrite (counts_total _ Hinv), Hc. done.
  - destruct (recorder_groups_loop datas [] _ recorder_groups_start)
      as (_ & groups & Hqueue & Hfull & Hdone).
    rewrite app_nil_l in Hdone.
    rewrite Hqueue, length_fmap, ?Nat.add_0_l in Hq.
    rewrite <- Hq. clear Hq Hn Hc Hinv Hqueue.
    set (self := (AudioRecorder.record_loop (Ok <$> datas) AudioRecorder.start).1)
      in *.
    clearbody self. subst datas.
    by rewrite drop_app_length' by (by rewrite (length_concat_groups 63)).
Qed.

Lemma silence_full_read (data : bytes) :
  Ok data ∈ replicate 63 (Ok silence : result bytes) → full_read data.
Proof. intros [[= ->] _]%elem_of_replicate. reflexivity. Qed.

(** C7, amended. When every read returns [CHUNK_SIZE] frames, the [i]-th
    chunk the recorder queues is the concatenation, in order, of the reads
    [63 * i] to [63 * i + 62]; it holds [chunk_samples] samples (64512: the
    63 blocks of 1024 that first reach [RATE * CHUNK_LEN_SEC] = 64000); and
    an iteration that queues a chunk leaves the accumulator empty and the
    sample count at zero. *)
Theorem queued_chunks_are_whole_blocks (reads : list (result bytes)) :
  (∀ data, Ok data ∈ reads → full_read data) →
  (∀ i c,
     AudioRecorder.chunk_queue
       (AudioRecorder.record_loop reads AudioRecorder.start).1 !! i = Some c →
     63 * (i + 1) ≤ length (delivered reads)
     ∧ c = concat (take 63 (drop (63 * i) (delivered reads))))
  ∧ Forall (λ c, Z.of_nat (length c) = (chunk_samples * SAMPLE_WIDTH * CHANNELS)%Z)
      (AudioRecorder.chunk_queue (AudioRecorder.record_loop reads AudioRecorder.start).1)
  ∧ chunk_samples = 64512%Z
  ∧ (63 * CHUNK_SIZE)%Z = chunk_samples
  ∧ ∀ self data,
      AudioRecorder.chunk_queue (AudioRecorder.record_step self data)
      ≠ AudioRecorder.chunk_queue self →
      AudioRecorder.current_chunk (AudioRecorder.record_step self data) = []
      ∧ AudioRecorder.total_samples (AudioRecorder.record_step self data) = 0%Z.
Proof.
  intros Hreads. split_and!.
  - intros i c Hic. rewrite record_loop_delivered in Hic.
    destruct (recorder_groups_loop (delivered reads) [] _ recorder_groups_start)
      as (_ & groups & Hqueue & Hfull & Hdone).
    rewrite app_nil_l in Hdone. rewrite Hqueue in Hic.
    apply list_lookup_fmap_Some_1 in Hic as (g & -> & Hg).
    destruct (group_lookup 63 groups
                (AudioRecorder.current_chunk
                   (AudioRecorder.record_loop (Ok <$> delivered reads)
                      AudioRecorder.start).1) Hfull i g Hg) as [Hlen Htake].
    rewrite <- Hdone in Hlen, Htake. by rewrite Htake.
  - apply (recorder_inv_loop reads _ Hreads recorder_inv_start).
  - done.
  - done.
  - intros self data. unfold AudioRecorder.record_step. by case_match.
Qed.

Lemma delivered_ok (datas : list bytes) : delivered (Ok <$> datas) = datas.
Proof.
  induction datas as [|data datas IH]; [done|].
  cbn [fmap list_fmap delivered]. f_equal. exact IH.
Qed.

Lemma beep_reads_full (data : bytes) :
  Ok data ∈ (Ok <$> beep_reads : list (result bytes)) → full_read data.
Proof.
  intros (d & [= ->] & Hd)%list_elem_of_fmap. unfold beep_reads in Hd.
  apply elem_of_app in Hd as [[-> _]%elem_of_replicate | ->%list_elem_of_singleton];
    reflexivity.
Qed.

Lemma queued_chunks_are_whole_blocks_witness :
  (∀ data, Ok data ∈ (Ok <$> beep_reads : list (result bytes)) → full_read data)
  ∧ AudioRecorder.chunk_queue
      (AudioRecorder.record_loop (Ok <$> beep_reads) AudioRecorder.start).1
    = [concat beep_reads].
Proof.
  split; [exact beep_reads_full|].
  destruct (queued_chunks_are_whole_blocks _ beep_reads_full) as (Hcontent & _).
  assert ((λ c, Z.of_nat (length c)) <$>
            AudioRecorder.chunk_queue
              (AudioRecorder.record_loop (Ok <$> beep_reads) AudioRecorder.start).1
          = [129024%Z]) as Hsizes by (vm_compute; reflexivity).
  destruct (AudioRecorder.chunk_queue _) as [|c [|c' queue]];
    [discriminate Hsizes| |discriminate Hsizes].
  destruct (Hcontent 0 c eq_refl) as [_ ->].
  rewrite delivered_ok, drop_0, take_ge; [reflexivity|].
  unfold beep_reads. rewrite length_app, length_replicate. cbn [length]. lia.
Defined.

(** ** Further properties of the text normalization *)

Module StripFacts.
Import Text.

Lemma rstrip_cons (c : ascii) (s : string) :
  isspace c = false → rstrip (String c s) = String c (rstrip s).
Proof. intros Hc. simpl. rewrite Hc. by destruct (rstrip s). Qed.

Lemma lstrip_head (s : string) :
  lstrip s = EmptyString
  ∨ ∃ c t, lstrip s = String c t ∧ isspace c = false.
Proof.
  induction s as [|c s IH]; [by left|]. simpl.
  destruct (isspace c) eqn:Hc; [done|]. right. by exists c, s.
Qed.

Lemma rstrip_idemp (s : string) : rstrip (rstrip s) = rstrip s.
Proof.
  induction s as [|c s IH]; [done|]. simpl.
  destruct (rstrip s) as [|c' r] eqn:Hr.
  - destruct (isspace c) eqn:Hc; [done|]. simpl. by rewrite Hc.
  - change (rstrip (String c (String c' r))) with
      (match rstrip (String c' r) with
       | EmptyString => if isspace c then EmptyString else String c EmptyString
       | r0 => String c r0
       end).
    by rewrite IH.
Qed.

Lemma lstrip_strip (s : string) : lstrip (strip s) = strip s.
Proof.
  unfold strip. destruct (lstrip_head s) as [->|(c & t & -> & Hc)]; [done|].
  rewrite rstrip_cons by done. simpl. by rewrite Hc.
Qed.

End StripFacts.

(** X12. The text written for a word, [w.word.strip()], has no whitespace
    left at either end: stripping it again on the left or on the right
    changes nothing. *)
Theorem emitted_token_has_no_outer_whitespace (s : string) :
  Text.lstrip (Text.strip s) = Text.strip s
  ∧ Text.rstrip (Text.strip s) = Text.strip s
  ∧ Text.strip (Text.strip s) = Text.strip s.
Proof.
  assert (Text.rstrip (Text.strip s) = Text.strip s) as Hr
    by apply StripFacts.rstrip_idemp.
  split; [apply StripFacts.lstrip_strip|]. split; [done|].
  unfold Text.strip at 1. by rewrite StripFacts.lstrip_strip.
Qed.

(** ** The processing loop: successful transcriptions *)

(** X14. When the service returns words for a chunk, the processing loop
    merges them: the console grows by exactly the text of the words from
    [trim_index] on, [prev_words] becomes the chunk's words (if any), and
    one call is counted. *)
Theorem successful_transcription_is_merged
    (service : nat → bytes → result Response) (p : Pipeline)
    (audio_data : bytes) (ws : list Word) :
  service (calls p) audio_data = Ok (mkResponse (Some ws)) →
  ∃ k,
    trim_index (manager p) ws = Ok k
    ∧ console (process_step service p audio_data)
      = console p +:+ printed (drop k ws)
    ∧ prev_words (manager (process_step service p audio_data))
      = match ws with [] => prev_words (manager p) | _ => ws end
    ∧ calls (process_step service p audio_data) = S (calls p).
Proof.
  intros Hok. destruct (trim_index_total (manager p) ws) as [k Hk].
  exists k. split; [exact Hk|].
  unfold process_step, transcribe_chunk. rewrite Hok.
  set (self := mkTranscriptionManager _ _ _).
  assert (trim_index self ws = Ok k) as Hk' by exact Hk.
  rewrite TextFacts.append_nil_r.
  destruct ws as [|w ws'].
  - rewrite drop_nil.
    cbn [update_transcript printed console manager prev_words calls].
    split_and!; reflexivity.
  - rewrite (update_transcript_ok self (w :: ws') k) by done.
    cbn [console manager prev_words calls]. split_and!; reflexivity.
Qed.

Lemma successful_transcription_is_merged_witness :
  (λ _ _, Ok (mkResponse (Some repeat_chunk))) (calls after_hello) silence
  = (Ok (mkResponse (Some repeat_chunk)) : result Response)
  ∧ console (process_step (λ _ _, Ok (mkResponse (Some repeat_chunk)))
               after_hello silence)
    = " hello world quick brown fox".
Proof.
  split; [reflexivity|].
  destruct (successful_transcription_is_merged
              (λ _ _, Ok (mkResponse (Some repeat_chunk)))
              after_hello silence repeat_chunk eq_refl)
    as (k & Hk & Hconsole & _).
  rewrite Hconsole.
  assert (k = 0) as -> by (vm_compute in Hk; congruence).
  vm_compute. reflexivity.
Defined.
